(** * CountedEvent (octoprint/util/__init__.py): a counted, resettable gate

    The class keeps an integer counter next to a [threading.Event] and a
    [threading.Lock].  Its methods are embedded as small programs over the
    primitive operations the Python code performs on its four fields; one
    handler gives these operations their meaning, and it is used both to run
    a method call to completion (the sequential reading) and to take one
    atomic step of one thread among several (the interleaved reading). *)

From Stdlib Require Import ZArith Lia Ascii DecimalString DecimalZ.
From stdpp Require Import base option list relations strings gmap.

Local Open Scope Z_scope.

(** ** The object *)

(** Thread identifiers.  [threading.Lock] itself has no owner; the holder is
    recorded so that "thread [t] holds the lock" can be stated. *)
Abbreviation tid := nat.

Record CountedEvent : Type := mkCountedEvent {
  _counter : Z;            (* self._counter, a Python integer *)
  _max : option Z;         (* self._max, None when there is no ceiling *)
  _mutex : option tid;     (* self._mutex: None when unlocked, else the holder *)
  _event : bool            (* self._event: the flag inside threading.Event *)
}.

Definition with_counter (v : Z) (s : CountedEvent) : CountedEvent :=
  mkCountedEvent v (_max s) (_mutex s) (_event s).

Definition with_mutex_state (m : option tid) (s : CountedEvent) : CountedEvent :=
  mkCountedEvent (_counter s) (_max s) m (_event s).

Definition with_event (b : bool) (s : CountedEvent) : CountedEvent :=
  mkCountedEvent (_counter s) (_max s) (_mutex s) b.

(** ** Primitive operations and programs *)

(** What a method body does to the object, one constructor per kind of
    statement found in the class.  The duration of a timeout is never
    inspected: only its presence matters. *)
Inductive action : Type -> Type :=
| GetCounter : action Z                       (* read self._counter *)
| SetCounter (v : Z) : action unit            (* self._counter = v *)
| GetMax : action (option Z)                  (* read self._max *)
| Acquire : action unit                       (* self._mutex.acquire() *)
| Release : action unit                       (* self._mutex.release() *)
| EventSet : action unit                      (* self._event.set() *)
| EventClear : action unit                    (* self._event.clear() *)
| EventWait (timeout : option Z) : action unit.  (* self._event.wait(timeout) *)

Inductive prog (A : Type) : Type :=
| Ret (a : A)
| Do {X : Type} (e : action X) (k : X -> prog A).

Arguments Ret {A} a.
Arguments Do {A X} e k.

Fixpoint bind {A B : Type} (p : prog A) (f : A -> prog B) : prog B :=
  match p with
  | Ret a => f a
  | Do e k => Do e (fun x => bind (k x) f)
  end.

Definition perform {X : Type} (e : action X) : prog X := Do e Ret.

Declare Scope prog_scope.
Delimit Scope prog_scope with prog.
Bind Scope prog_scope with prog.
Notation "x <- p ;; q" := (bind p (fun x => q))
  (at level 100, p at next level, q at level 200, right associativity) : prog_scope.
Notation "p ;; q" := (bind p (fun _ => q))
  (at level 100, q at level 200, right associativity) : prog_scope.
Local Open Scope prog_scope.

(** ** Meaning of the primitive operations *)

Inductive outcome (X : Type) : Type :=
| Ok (x : X) (s : CountedEvent)   (* completed with result x in state s *)
| Blocks                          (* the calling thread cannot proceed now *)
| Raises.                         (* a Python exception *)

Arguments Ok {X} x s.
Arguments Blocks {X}.
Arguments Raises {X}.

(** [handle t e s]: thread [t] performs [e] in state [s].
    - [Lock.acquire] blocks while the lock is held by anyone;
    - [Lock.release] on an unlocked lock raises;
    - [Event.wait] returns at once when the flag is set, returns after the
      timeout when there is one, and blocks otherwise. *)
Definition handle (t : tid) {X : Type} (e : action X) (s : CountedEvent) : outcome X :=
  match e in action X return outcome X with
  | GetCounter => Ok (_counter s) s
  | SetCounter v => Ok tt (with_counter v s)
  | GetMax => Ok (_max s) s
  | Acquire =>
      match _mutex s with
      | None => Ok tt (with_mutex_state (Some t) s)
      | Some _ => Blocks
      end
  | Release =>
      match _mutex s with
      | Some _ => Ok tt (with_mutex_state None s)
      | None => Raises
      end
  | EventSet => Ok tt (with_event true s)
  | EventClear => Ok tt (with_event false s)
  | EventWait timeout =>
      if _event s then Ok tt s
      else match timeout with
           | Some _ => Ok tt s
           | None => Blocks
           end
  end.

(** One thread running a program alone, to completion. *)
Fixpoint run (t : tid) {A : Type} (p : prog A) (s : CountedEvent) : outcome A :=
  match p with
  | Ret a => Ok a s
  | Do e k =>
      match handle t e s with
      | Ok x s' => run t (k x) s'
      | Blocks => Blocks
      | Raises => Raises
      end
  end.

(** ** The methods of the class *)

(** [with self._mutex: body] *)
Definition with_mutex {A : Type} (body : prog A) : prog A :=
  perform Acquire ;;
  r <- body ;;
  perform Release ;;
  Ret r.

(** [self._max] is read once here: no method ever assigns it, so the two
    reads of the Python condition see the same value. *)
Definition _internal_set (value : Z) : prog unit :=
  perform (SetCounter value) ;;
  c <- perform GetCounter ;;
  if c <=? 0 then
    perform (SetCounter 0) ;;
    perform EventClear
  else
    mx <- perform GetMax ;;
    c' <- perform GetCounter ;;
    match mx with
    | Some m => if c' >? m then perform (SetCounter m) else Ret tt
    | None => Ret tt
    end ;;
    perform EventSet.

Definition set : prog unit :=
  with_mutex (c <- perform GetCounter ;; _internal_set (c + 1)).

Definition clear (completely : bool) : prog unit :=
  with_mutex
    (if completely then _internal_set 0
     else c <- perform GetCounter ;; _internal_set (c - 1)).

Definition wait (timeout : option Z) : prog unit :=
  perform (EventWait timeout).

Definition blocked : prog bool :=
  with_mutex (c <- perform GetCounter ;; Ret (c =? 0)).

(** The object as the first four assignments of [__init__] make it. *)
Definition fresh (max : option Z) : CountedEvent :=
  mkCountedEvent 0 max None false.

Definition __init__ (t : tid) (value : Z) (max : option Z) : outcome unit :=
  run t (_internal_set value) (fresh max).

(** ** Calls made one after another *)

Definition and_then {X Y : Type} (o : outcome X)
    (f : X -> CountedEvent -> outcome Y) : outcome Y :=
  match o with
  | Ok x s => f x s
  | Blocks => Blocks
  | Raises => Raises
  end.

(** The mutating calls of the interface. *)
Inductive op : Type :=
| OpSet
| OpClear (completely : bool).

Definition invoke (o : op) : prog unit :=
  match o with
  | OpSet => set
  | OpClear completely => clear completely
  end.

Fixpoint run_ops (t : tid) (ops : list op) (s : CountedEvent) : outcome unit :=
  match ops with
  | [] => Ok tt s
  | o :: ops' => and_then (run t (invoke o) s) (fun _ s' => run_ops t ops' s')
  end.

(** [CountedEvent(value, max)] followed by the calls [ops]. *)
Definition scenario (t : tid) (value : Z) (max : option Z) (ops : list op)
    : outcome unit :=
  and_then (__init__ t value max) (fun _ s => run_ops t ops s).

(** States in which the object can be found between two calls: the
    constructor's result, and the result of any completed method call, by any
    thread, from such a state. *)
Inductive reachable (value : Z) (max : option Z) : CountedEvent -> Prop :=
| reach_init t s :
    __init__ t value max = Ok tt s -> reachable value max s
| reach_set t s s' :
    reachable value max s -> run t set s = Ok tt s' -> reachable value max s'
| reach_clear t completely s s' :
    reachable value max s -> run t (clear completely) s = Ok tt s' ->
    reachable value max s'
| reach_blocked t b s s' :
    reachable value max s -> run t blocked s = Ok b s' -> reachable value max s'
| reach_wait t timeout s s' :
    reachable value max s -> run t (wait timeout) s = Ok tt s' ->
    reachable value max s'.

(** The ceilings the data model allows: none, or a non-negative integer. *)
Definition valid_max (max : option Z) : Prop :=
  match max with
  | Some m => 0 <= m
  | None => True
  end.

(** ** The counter as a formula *)

(** These follow the wording of the specification, not the code: sets minus
    non-complete clears, a complete clear restarting the count. *)
Definition net_step (n : Z) (o : op) : Z :=
  match o with
  | OpSet => n + 1
  | OpClear false => n - 1
  | OpClear true => 0
  end.

Definition net_sets_minus_clears (ops : list op) : Z :=
  fold_left net_step ops 0.

(** The net clamped once, after the whole sequence. *)
Definition clamped_at_end (max_ceiling : Z) (ops : list op) : Z :=
  Z.max 0 (Z.min max_ceiling (net_sets_minus_clears ops)).

(** Clamping into [0, max], or into [0, +oo) without a ceiling. *)
Definition clamp (max : option Z) (n : Z) : Z :=
  Z.max 0 (match max with Some m => Z.min m n | None => n end).

(** The net clamped after every call. *)
Definition clamped_step (max : option Z) (n : Z) (o : op) : Z :=
  clamp max (net_step n o).

Definition clamped_each_step (max : option Z) (ops : list op) : Z :=
  fold_left (clamped_step max) ops 0.

(** ** What a completed call leaves behind *)

(** The state in which [_internal_set value] ends, in closed form; lemma
    [run_internal_set] below relates it to the method. *)
Definition internal_set_post (value : Z) (s : CountedEvent) : CountedEvent :=
  if value <=? 0 then mkCountedEvent 0 (_max s) (_mutex s) false
  else
    mkCountedEvent
      match _max s with
      | Some m => if value >? m then m else value
      | None => value
      end
      (_max s) (_mutex s) true.

(** ** Threads sharing one object *)

(** One atomic step of thread [t]: the first primitive operation of what is
    left of its call, when that operation can proceed. *)
Definition thread_step (t : tid) {A : Type} (p : prog A) (s : CountedEvent)
    : option (prog A * CountedEvent) :=
  match p with
  | Ret _ => None
  | Do e k =>
      match handle t e s with
      | Ok x s' => Some (k x, s')
      | Blocks => None
      | Raises => None
      end
  end.

(** A configuration is the shared object and, for every thread, what is left
    to run of its call; a thread's identifier is its position in the list.
    Any thread that can take a step may be the next one to do so. *)
Inductive step :
    CountedEvent * list (prog unit) -> CountedEvent * list (prog unit) -> Prop :=
| step_thread (t : tid) (p p' : prog unit) (s s' : CountedEvent)
      (ps : list (prog unit)) :
    ps !! t = Some p ->
    thread_step t p s = Some (p', s') ->
    step (s, ps) (s', <[t := p']> ps).

Definition holds (t : tid) (s : CountedEvent) : Prop := _mutex s = Some t.

(** ** Calls in progress *)

(** What is left of a [set()] or [clear()] once the lock is taken: accesses
    to the counter and the ceiling and updates of the event, whatever they
    return, then the release of the lock, then nothing. *)
Fixpoint critical (p : prog unit) : Prop :=
  match p with
  | Ret _ => False
  | Do e k =>
      match e in action X return (X -> prog unit) -> (X -> Prop) -> Prop with
      | Release => fun k _ => k tt = Ret tt
      | Acquire => fun _ _ => False
      | EventWait _ => fun _ _ => False
      | GetCounter => fun _ rest => forall x, rest x
      | SetCounter _ => fun _ rest => forall x, rest x
      | GetMax => fun _ rest => forall x, rest x
      | EventSet => fun _ rest => forall x, rest x
      | EventClear => fun _ rest => forall x, rest x
      end k (fun x => critical (k x))
  end.

(** Where a thread is with its one call. *)
Inductive tstate : Type :=
| Waiting (o : op)      (* not started *)
| Running (o : op)      (* between taking and releasing the lock *)
| Finished (o : op).    (* returned *)

Definition thread_rel (i : tid) (s : CountedEvent) (st : tstate)
    (p : prog unit) : Prop :=
  match st with
  | Waiting o => p = invoke o
  | Running _ => critical p /\ _mutex s = Some i
  | Finished _ => p = Ret tt
  end.

(** The calls not started yet. *)
Definition waiting (ts : list tstate) : list op :=
  omap (fun st => match st with Waiting o => Some o | _ => None end) ts.

(** What holds of every configuration that threads making the calls [ops],
    one each, can reach from the state [s0] in which the lock is free:
    [hist] lists the calls started so far in the order in which they took
    the lock. *)
Definition serial_inv (t0 : tid) (s0 : CountedEvent) (ops : list op)
    (cfg : CountedEvent * list (prog unit)) : Prop :=
  exists (ts : list tstate) (hist : list op),
    length ts = length cfg.2 /\
    (forall i st p, ts !! i = Some st -> cfg.2 !! i = Some p ->
                    thread_rel i cfg.1 st p) /\
    hist ++ waiting ts ≡ₚ ops /\
    match _mutex cfg.1 with
    | None => run_ops t0 hist s0 = Ok tt cfg.1
    | Some i =>
        exists o hist' s_pre p,
          ts !! i = Some (Running o) /\ cfg.2 !! i = Some p /\
          hist = hist' ++ [o] /\
          run_ops t0 hist' s0 = Ok tt s_pre /\ _mutex s_pre = None /\
          run i p cfg.1 = run i (invoke o) s_pre
    end.


(** * File names (isAllowedFile, findCollisionfreeName, getDosFilename) *)

(** A Python string is the list of its characters. *)
Abbreviation pystr := (list ascii).

(** The exceptions the functions below can raise. *)
Inductive exn : Type :=
| ValueError
| KeyError.

(** What a call gives back: a value, an exception, or no answer within the
    number of loop iterations it was allowed. *)
Inductive result (A : Type) : Type :=
| Returns (a : A)
| Raise (e : exn)
| OutOfFuel.

Arguments Returns {A} a.
Arguments Raise {A} e.
Arguments OutOfFuel {A}.

(** [s.rsplit(sep, 1)] for a one-character separator: [Some (before, after)]
    stands for the two-element list that is returned when [sep] occurs in
    [s], the cut being made at its last occurrence, and [None] for the
    one-element list [[s]] returned otherwise. *)
Fixpoint rsplit1 (sep : ascii) (s : pystr) : option (pystr * pystr) :=
  match s with
  | [] => None
  | c :: s' =>
      match rsplit1 sep s' with
      | Some (before, after) => Some (c :: before, after)
      | None => if decide (c = sep) then Some ([], s') else None
      end
  end.

(** ["." in filename and filename.rsplit(".", 1)[1] in extensions]: the
    index [1] is only evaluated when the first test succeeded. *)
Definition isAllowedFile (filename : pystr) (extensions : list pystr) : bool :=
  bool_decide ("."%char ∈ filename) &&
  match rsplit1 "." filename with
  | Some (_, ext) => bool_decide (ext ∈ extensions)
  | None => false
  end.

(** [s[:n]], where a negative [n] counts from the end. *)
Definition slice_to (n : Z) (s : pystr) : pystr :=
  if 0 <=? n then take (Z.to_nat n) s
  else take (length s - Z.to_nat (- n)) s.

(** [str(n)] for an integer: its decimal digits, with a minus sign if
    negative. *)
Definition str (n : Z) : pystr :=
  String.list_ascii_of_string (NilZero.string_of_int (Z.to_int n)).

(** The characters [translate] deletes: dot, double quote, slash,
    backslash, both square brackets, colon, semicolon, equals sign, comma. *)
Definition deleted_chars : list ascii :=
  ["."; "034"; "/"; "\"; "["; "]"; ":"; ";"; "="; ","]%char.

(** [s.translate({ord(i): None for i in deleted})] *)
Definition translate_delete (deleted : list ascii) (s : pystr) : pystr :=
  filter (fun c => c ∉ deleted) s.

(** [\s] without the UNICODE flag: space, \t, \n, \r, \f, \v. *)
Definition is_space (c : ascii) : bool :=
  bool_decide (c ∈ [" "; "009"; "010"; "013"; "012"; "011"]%char).

(** [re.sub(r"\s+", repl, s)]: every maximal run of white space becomes one
    [repl]; [in_run] tells that the previous character was white space. *)
Fixpoint sub_spaces (repl : pystr) (in_run : bool) (s : pystr) : pystr :=
  match s with
  | [] => []
  | c :: s' =>
      if is_space c then
        (if in_run then [] else repl) ++ sub_spaces repl true s'
      else c :: sub_spaces repl false s'
  end.

Section FindCollisionfreeName.
(** [input] is a [unicode] string, the kind whose [translate] takes a
    dict.  [unicode.lower] follows the case tables of the Python runtime:
    it is a parameter, and nothing below depends on what it does. *)
Variable lower : pystr -> pystr.

(** The first statement: [re.sub(r"\s+", "_", input.lower().translate(...))] *)
Definition sanitized (input : pystr) : pystr :=
  sub_spaces ["_"%char] false (translate_delete deleted_chars (lower input)).

(** The [while] loop, entered with the current [counter] and [power]. *)
Fixpoint find_loop (fuel : nat) (filename extension : pystr)
    (existingFilenames : list pystr) (counter power : Z) : result pystr :=
  match fuel with
  | O => OutOfFuel
  | S fuel' =>
      if counter <? 10 * power then
        let result :=
          slice_to (6 - power + 1) filename
            ++ "~"%char :: str counter ++ "."%char :: extension in
        if bool_decide (result ∉ existingFilenames) then Returns result
        else
          let counter := counter + 1 in
          let power := if counter =? 10 * power then power + 1 else power in
          find_loop fuel' filename extension existingFilenames counter power
      else Raise ValueError
  end.

Definition findCollisionfreeName (fuel : nat) (input extension : pystr)
    (existingFilenames : list pystr) : result pystr :=
  find_loop fuel (sanitized input) extension existingFilenames 1 1.

(** [input] and [extension] may be [None]; a [None] result is [Returns None]. *)
Definition getDosFilename (fuel : nat) (input : option pystr)
    (existingFilenames : list pystr) (extension : option pystr)
    : result (option pystr) :=
  match input with
  | None => Returns None
  | Some input =>
      let extension := default ["g"; "c"; "o"]%char extension in
      match rsplit1 "." input with
      | Some (filename, ext) =>
          match findCollisionfreeName fuel filename extension
                  existingFilenames with
          | Returns r => Returns (Some r)
          | Raise e => Raise e
          | OutOfFuel => OutOfFuel
          end
      | None => Raise ValueError
      end
  end.
End FindCollisionfreeName.

(** The characters [str] can produce. *)
Definition digit_or_minus (c : ascii) : Prop :=
  c ∈ ["0"; "1"; "2"; "3"; "4"; "5"; "6"; "7"; "8"; "9"; "-"]%char.

(** The value [power] has whenever the loop test is evaluated with
    [counter] (lemma [find_loop_spec]). *)
Definition power_of (counter : Z) : Z :=
  if counter <? 10 then 1 else counter / 10 + 1.

(** The name the loop tries for [counter]. *)
Definition candidate (filename extension : pystr) (counter : Z) : pystr :=
  slice_to (6 - power_of counter + 1) filename
    ++ "~"%char :: str counter ++ "."%char :: extension.

(** A character that survives the clean-up of a name: not one of the deleted
    characters and not white space. *)
Definition clean_char (c : ascii) : Prop :=
  (c ∉ deleted_chars) /\ is_space c = false.

(** * Durations (getFormattedTimeDelta) *)

(** A [datetime.timedelta], which Python keeps normalized:
    [0 <= seconds < 86400] and [0 <= microseconds < 1000000], the sign being
    carried by [days]. *)
Record timedelta : Type := mkTimedelta {
  days : Z;
  seconds : Z;
  microseconds : Z
}.

Definition timedelta_normalized (d : timedelta) : Prop :=
  0 <= seconds d < 86400 /\ 0 <= microseconds d < 1000000.

(** [s] with zeros put in front up to the width [w]. *)
Definition pad_zero (w : nat) (s : pystr) : pystr :=
  replicate (w - length s) "0"%char ++ s.

(** ["%02d" % n]: at least two characters, the sign counting as one. *)
Definition format_02d (n : Z) : pystr :=
  if n <? 0 then "-"%char :: pad_zero 1 (str (- n)) else pad_zero 2 (str n).

Definition getFormattedTimeDelta (d : option timedelta) : option pystr :=
  match d with
  | None => None
  | Some d =>
      let hours := days d * 24 + seconds d / 3600 in
      let minutes := (seconds d mod 3600) / 60 in
      let seconds := seconds d mod 60 in
      Some (format_02d hours ++ ":"%char :: format_02d minutes
              ++ ":"%char :: format_02d seconds)
  end.

(** Reading a run of decimal digits back, leading zeros allowed. *)
Definition digits_value (s : pystr) : option Z :=
  Z.of_uint <$> NilEmpty.uint_of_string (String.string_of_list_ascii s).

(** Reading back a number written with an optional minus sign. *)
Definition int_value (s : pystr) : option Z :=
  match s with
  | c :: s' => if decide (c = "-"%char) then Z.opp <$> digits_value s'
               else digits_value s
  | [] => digits_value s
  end.

Definition digit (c : ascii) : Prop :=
  c ∈ ["0"; "1"; "2"; "3"; "4"; "5"; "6"; "7"; "8"; "9"]%char.

(** * Nested dictionaries (dict_merge, dict_clean) *)

Section Dicts.
Context {K : Type} `{Countable K} {A : Type}.

(** A Python value as these two functions see it: a dict, whose values are
    again such values, or anything else.  Values are immutable here, so
    [deepcopy] is the identity. *)
#[warnings="-register-all"]
Inductive value : Type :=
| Atom (x : A)
| Dict (d : gmap K value).

(** [dict_merge(a, b)] for a dict [a].  The loop runs over the items of [b]
    in the order the dict yields them, [map_fold]'s order here. *)
Fixpoint dict_merge (a : gmap K value) (b : value) {struct b} : value :=
  match b with
  | Atom _ => b
  | Dict db =>
      Dict (map_fold
              (fun k v result =>
                 match result !! k with
                 | Some (Dict r) => <[k := dict_merge r v]> result
                 | _ => <[k := v]> result
                 end)
              a db)
  end.

(** The loop of [dict_clean] over the items of [a], starting from the copy
    [result = a]; [rec v bk] stands for the recursive call
    [dict_clean(v, b[k])], made for a dict [v] only. *)
Definition clean_items (rec : value -> value -> value)
    (a db : gmap K value) : gmap K value :=
  map_fold
    (fun k v result =>
       match db !! k with
       | None => delete k result
       | Some bk =>
           match v with
           | Dict _ => <[k := rec v bk]> result
           | Atom _ => <[k := v]> result
           end
       end)
    a a.

(** [dict_clean(a, b)] with the dict [a] given as a value, the form in
    which the recursive call meets it.  The last case is the one of a
    non-dict [b], which returns [a]; [clean_items] never calls this
    function on an [a] that is not a dict. *)
Fixpoint dict_clean_value (a b : value) {struct a} : value :=
  match a, b with
  | Dict da, Dict db => Dict (clean_items dict_clean_value da db)
  | _, _ => a
  end.

(** [dict_clean(a, b)] for a dict [a]. *)
Definition dict_clean (a : gmap K value) (b : value) : gmap K value :=
  match b with
  | Atom _ => a
  | Dict db => clean_items dict_clean_value a db
  end.

(** The number of constructors of a value. *)
Fixpoint value_size (v : value) : nat :=
  match v with
  | Atom _ => 1%nat
  | Dict d => S (map_fold (fun _ v' n => (value_size v' + n)%nat) 0%nat d)
  end.
End Dicts.

Arguments value K {_ _} A.

(** * Requests (getRemoteAddress, getJsonCommandFromRequest) *)

(** [s.split(sep)[0]] for a one-character separator: what comes before the
    first [sep], or all of [s]. *)
Fixpoint split_first (sep : ascii) (s : pystr) : pystr :=
  match s with
  | [] => []
  | c :: s' => if decide (c = sep) then [] else c :: split_first sep s'
  end.

(** [needle in hay], for strings. *)
Fixpoint contains (needle hay : pystr) : bool :=
  bool_decide (needle `prefix_of` hay) ||
  match hay with
  | [] => false
  | _ :: hay' => contains needle hay'
  end.

(** A JSON value as far as the code looks into it: a string or something
    else. *)
Inductive json (A : Type) : Type :=
| JString (s : pystr)
| JOther (x : A).

Arguments JString {A} s.
Arguments JOther {A} x.

(** What the two functions read of a Flask request.  Header names are
    looked up by Flask; a header is [None] when the request does not have
    it. *)
Record request (A : Type) : Type := mkRequest {
  x_forwarded_for : option pystr;    (* request.headers.get("X-Forwarded-For", None) *)
  content_type : option pystr;       (* request.headers["Content-Type"] *)
  remote_addr : pystr;               (* request.remote_addr *)
  request_json : gmap pystr (json A) (* request.json *)
}.

Arguments x_forwarded_for {A} r.
Arguments content_type {A} r.
Arguments remote_addr {A} r.
Arguments request_json {A} r.


Definition getRemoteAddress {A : Type} (req : request A) : pystr :=
  match x_forwarded_for req with
  | Some forwardedFor => split_first "," forwardedFor
  | None => remote_addr req
  end.






(** * Lines of bytes (sanitizeAscii, filterNonAscii) *)

(** Here a line is a Python 2 byte string, the list of its bytes, and a
    [unicode] string is the list of its code points. *)
Definition is_ascii_byte (b : ascii) : bool := (N_of_ascii b <? 128)%N.

(** [unicode(line, 'ascii', 'replace')]: every byte that is not ASCII
    becomes U+FFFD. *)
Definition decode_ascii_replace (line : pystr) : list N :=
  (fun b => if is_ascii_byte b then N_of_ascii b else 65533%N) <$> line.

(** [u.encode('ascii', 'replace')]: every code point that is not ASCII
    becomes a question mark. *)
Definition encode_ascii_replace (u : list N) : pystr :=
  (fun c => if (c <? 128)%N then ascii_of_N c else "?"%char) <$> u.

(** [unicode(line, 'ascii')], [None] standing for [UnicodeDecodeError], and
    [u.encode('ascii')], [None] standing for [UnicodeEncodeError]; both are
    subclasses of [ValueError]. *)
Definition decode_ascii (line : pystr) : option (list N) :=
  if forallb is_ascii_byte line then Some (N_of_ascii <$> line) else None.

Definition encode_ascii (u : list N) : option pystr :=
  if forallb (fun c => (c <? 128)%N) u then Some (ascii_of_N <$> u) else None.

(** [s.rstrip()]: [s] without its trailing white space. *)
Fixpoint rstrip (s : pystr) : pystr :=
  match s with
  | [] => []
  | c :: s' =>
      match rstrip s' with
      | [] => if is_space c then [] else [c]
      | r => c :: r
      end
  end.

Definition sanitizeAscii (line : pystr) : pystr :=
  rstrip (encode_ascii_replace (decode_ascii_replace line)).

(** [try: ...; return False / except ValueError: return True] *)
Definition filterNonAscii (line : pystr) : bool :=
  match decode_ascii line with
  | Some u =>
      match encode_ascii u with
      | Some _ => false
      | None => true
      end
  | None => true
  end.

(** * Properties *)

Lemma run_bind t {A B : Type} (p : prog A) (f : A -> prog B) s :
  run t (bind p f) s = and_then (run t p s) (fun x s' => run t (f x) s').
Proof.
  revert s. induction p as [a | X e k IH]; intros s; simpl; [reflexivity |].
  destruct (handle t e s); simpl; auto.
Qed.

Lemma run_internal_set t value s :
  run t (_internal_set value) s = Ok tt (internal_set_post value s).
Proof.
  unfold _internal_set, internal_set_post. simpl.
  destruct (value <=? 0); simpl; [reflexivity |].
  destruct s as [c [m |] l e]; simpl; [| reflexivity].
  destruct (value >? m); reflexivity.
Qed.

Lemma internal_set_post_mutex value s :
  _mutex (internal_set_post value s) = _mutex s.
Proof. unfold internal_set_post. destruct (value <=? 0); reflexivity. Qed.

Lemma internal_set_post_max value s :
  _max (internal_set_post value s) = _max s.
Proof. unfold internal_set_post. destruct (value <=? 0); reflexivity. Qed.

Lemma run_with_mutex t {A : Type} (body : prog A) s r s' :
  _mutex s = None ->
  run t body (with_mutex_state (Some t) s) = Ok r s' ->
  _mutex s' = Some t ->
  run t (with_mutex body) s = Ok r (with_mutex_state None s').
Proof.
  intros Hfree Hbody Hheld. unfold with_mutex.
  rewrite run_bind. simpl. rewrite Hfree. simpl.
  rewrite run_bind, Hbody. simpl. rewrite Hheld. reflexivity.
Qed.

Lemma run_with_mutex_held t {A : Type} (body : prog A) s :
  _mutex s <> None -> run t (with_mutex body) s = Blocks.
Proof.
  intros Hheld. unfold with_mutex. rewrite run_bind. simpl.
  destruct (_mutex s); [reflexivity | congruence].
Qed.

Lemma internal_set_post_unlock value t s :
  _mutex s = None ->
  with_mutex_state None (internal_set_post value (with_mutex_state (Some t) s))
  = internal_set_post value s.
Proof.
  intros Hfree. unfold internal_set_post, with_mutex_state.
  destruct (value <=? 0); simpl; rewrite Hfree; reflexivity.
Qed.

Lemma run_set t s :
  _mutex s = None ->
  run t set s = Ok tt (internal_set_post (_counter s + 1) s).
Proof.
  intros Hfree. unfold set.
  rewrite <- (internal_set_post_unlock _ t s Hfree).
  apply run_with_mutex; [exact Hfree | |].
  - rewrite run_bind. simpl. apply run_internal_set.
  - rewrite internal_set_post_mutex. reflexivity.
Qed.

Lemma run_clear t completely s :
  _mutex s = None ->
  run t (clear completely) s
  = Ok tt (internal_set_post (if completely then 0 else _counter s - 1) s).
Proof.
  intros Hfree. unfold clear.
  rewrite <- (internal_set_post_unlock _ t s Hfree).
  apply run_with_mutex; [exact Hfree | |].
  - destruct completely.
    + apply run_internal_set.
    + rewrite run_bind. simpl. apply run_internal_set.
  - rewrite internal_set_post_mutex. reflexivity.
Qed.

Lemma run_blocked t s :
  _mutex s = None -> run t blocked s = Ok (_counter s =? 0) s.
Proof.
  intros Hfree. destruct s as [c m l e]. simpl in Hfree. subst l. reflexivity.
Qed.

Lemma run_wait t timeout s r s' :
  run t (wait timeout) s = Ok r s' -> s' = s.
Proof.
  unfold wait. simpl. destruct (_event s); simpl.
  - congruence.
  - destruct timeout; simpl; congruence.
Qed.

Lemma init_ok t value max :
  __init__ t value max = Ok tt (internal_set_post value (fresh max)).
Proof. apply run_internal_set. Qed.

(** ** States between calls *)

Lemma internal_set_post_counter value s :
  valid_max (_max s) ->
  _counter (internal_set_post value s) = clamp (_max s) value.
Proof.
  unfold internal_set_post, clamp, valid_max. intros Hmax.
  destruct (Z.leb_spec value 0) as [Hle | Hgt]; simpl.
  - destruct (_max s) as [m |]; lia.
  - destruct (_max s) as [m |]; [| lia].
    destruct (Z.gtb_spec value m); lia.
Qed.

Lemma internal_set_post_event value s :
  _event (internal_set_post value s) = negb (value <=? 0).
Proof. unfold internal_set_post. destruct (value <=? 0); reflexivity. Qed.

(** Every state between calls is what [_internal_set] last left, on an
    object with the constructor's ceiling, and the lock is free. *)
Lemma reachable_shape value max s :
  reachable value max s ->
  _mutex s = None /\ _max s = max /\
  exists v s0, _max s0 = max /\ s = internal_set_post v s0.
Proof.
  induction 1 as [t s Hinit
                 | t s s' _ (Hfree & Hmax & _) Hrun
                 | t c s s' _ (Hfree & Hmax & _) Hrun
                 | t b s s' _ IH Hrun
                 | t timeout s s' _ IH Hrun].
  - rewrite init_ok in Hinit. injection Hinit as <-.
    rewrite internal_set_post_mutex, internal_set_post_max.
    repeat split. exists value, (fresh max). split; reflexivity.
  - rewrite (run_set _ _ Hfree) in Hrun. injection Hrun as <-.
    rewrite internal_set_post_mutex, internal_set_post_max.
    repeat split; try assumption. eauto.
  - rewrite (run_clear _ _ _ Hfree) in Hrun. injection Hrun as <-.
    rewrite internal_set_post_mutex, internal_set_post_max.
    repeat split; try assumption. eauto.
  - destruct IH as (Hfree & IH). rewrite (run_blocked _ _ Hfree) in Hrun.
    injection Hrun as _ <-. split; assumption.
  - apply run_wait in Hrun. subst s'. exact IH.
Qed.

Lemma reachable_mutex_free value max s :
  reachable value max s -> _mutex s = None.
Proof. intros H. apply reachable_shape in H. tauto. Qed.

Lemma reachable_max value max s :
  reachable value max s -> _max s = max.
Proof. intros H. apply reachable_shape in H. tauto. Qed.

Lemma reachable_counter_clamped value max s :
  valid_max max -> reachable value max s ->
  exists v, _counter s = clamp max v /\ _event s = negb (v <=? 0).
Proof.
  intros Hvalid H. apply reachable_shape in H.
  destruct H as (_ & _ & v & s0 & Hmax & ->). exists v.
  rewrite internal_set_post_event, internal_set_post_counter, Hmax;
    [split; reflexivity | rewrite Hmax; exact Hvalid].
Qed.

(** Without any assumption on the ceiling: the counter is non-negative or
    sits on the ceiling. *)
Lemma reachable_counter_weak value max s :
  reachable value max s -> 0 <= _counter s \/ max = Some (_counter s).
Proof.
  intros H. apply reachable_shape in H.
  destruct H as (_ & _ & v & s0 & Hmax & ->).
  unfold internal_set_post.
  destruct (Z.leb_spec v 0); simpl; [lia |].
  rewrite Hmax. destruct max as [m |]; [| lia].
  destruct (Z.gtb_spec v m); [right; reflexivity | lia].
Qed.

(** With a ceiling of at least 1, or none, the flag follows the counter. *)
Lemma event_iff_counter_positive value max s :
  valid_max max -> max <> Some 0 -> reachable value max s ->
  (_event s = true <-> 0 < _counter s).
Proof.
  intros Hvalid Hnz H.
  destruct (reachable_counter_clamped _ _ _ Hvalid H) as (v & -> & ->).
  unfold clamp. destruct max as [m |]; simpl in Hvalid.
  - assert (m <> 0) by congruence.
    destruct (Z.leb_spec v 0); simpl; split; intros; try lia; congruence.
  - destruct (Z.leb_spec v 0); simpl; split; intros; try lia; congruence.
Qed.

Lemma run_ops_counter t ops s :
  _mutex s = None -> valid_max (_max s) ->
  exists s', run_ops t ops s = Ok tt s' /\
             _mutex s' = None /\ _max s' = _max s /\
             _counter s' = fold_left (clamped_step (_max s)) ops (_counter s).
Proof.
  revert s. induction ops as [| o ops IH]; intros s Hfree Hvalid; simpl.
  - exists s. repeat split; assumption.
  - assert (Hrun : exists v, run t (invoke o) s = Ok tt (internal_set_post v s)
                             /\ v = net_step (_counter s) o).
    { destruct o as [| [|]]; simpl.
      - eexists; split; [apply run_set; exact Hfree | reflexivity].
      - eexists; split; [apply (run_clear t true); exact Hfree | reflexivity].
      - eexists; split; [apply (run_clear t false); exact Hfree | reflexivity]. }
    destruct Hrun as (v & -> & ->). simpl.
    destruct (IH (internal_set_post (net_step (_counter s) o) s))
      as (s' & Hrun & Hfree' & Hmax' & Hcount).
    + rewrite internal_set_post_mutex. exact Hfree.
    + rewrite internal_set_post_max. exact Hvalid.
    + exists s'. rewrite internal_set_post_max in Hmax', Hcount.
      rewrite (internal_set_post_counter _ _ Hvalid) in Hcount.
      repeat split; assumption.
Qed.

(** The constructor does not check the ceiling.  A negative one, which the
    data model excludes, puts the counter above it or below zero at once. *)
Remark negative_max_outside_data_model :
  __init__ 0 0 (Some (-1)) = Ok tt (mkCountedEvent 0 (Some (-1)) None false) /\
  __init__ 0 1 (Some (-1)) = Ok tt (mkCountedEvent (-1) (Some (-1)) None true).
Proof. split; reflexivity. Qed.

(** ** The counter after a sequence of calls *)

(** C1, as stated, fails: with ceiling 1, [set(); set(); clear()] leaves the
    counter at 0 (the second [set] saturates and is forgotten), whereas the
    net clamped once at the end is 1. *)
Lemma clamped_at_end_refuted :
  exists s,
    scenario 0 0 (Some 1) [OpSet; OpSet; OpClear false] = Ok tt s /\
    _counter s = 0 /\
    clamped_at_end 1 [OpSet; OpSet; OpClear false] = 1 /\
    _counter s <> clamped_at_end 1 [OpSet; OpSet; OpClear false].
Proof.
  eexists. split; [reflexivity |]. simpl. repeat split. discriminate.
Qed.

(** C1, amended: for every finite sequence of [set()], [clear()] and
    [clear(completely=True)] applied to an instance constructed with counter
    0 and a ceiling that is absent or non-negative, every call succeeds and
    the counter after the sequence is the running net clamped into
    [0, max_ceiling] after every call: from 0, [set] maps n to
    max(0, min(max_ceiling, n + 1)), [clear] maps n to
    max(0, min(max_ceiling, n - 1)) and [clear(completely=True)] maps n to 0. *)
Theorem counter_clamped_each_step (t : tid) (max : option Z) (ops : list op) :
  valid_max max ->
  exists s,
    scenario t 0 max ops = Ok tt s /\
    _counter s = clamped_each_step max ops.
Proof.
  intros Hvalid. unfold scenario. rewrite init_ok. simpl.
  destruct (run_ops_counter t ops (internal_set_post 0 (fresh max)))
    as (s & Hrun & _ & _ & Hcount); [reflexivity | exact Hvalid |].
  exists s. split; [exact Hrun | exact Hcount].
Qed.

Lemma counter_clamped_each_step_witness :
  valid_max (Some 1) /\
  exists s,
    scenario 0 0 (Some 1) [OpSet; OpSet; OpClear false] = Ok tt s /\
    _counter s = clamped_each_step (Some 1) [OpSet; OpSet; OpClear false].
Proof.
  split; [simpl; lia |].
  apply (counter_clamped_each_step 0 (Some 1) [OpSet; OpSet; OpClear false]).
  simpl. lia.
Defined.

(** ** The flag and the counter *)

(** C2 fails on the code at ceiling 0: after [CountedEvent(0, 0)] and one
    [set()], the counter is 0 (clamped to the ceiling after the sign test)
    while the flag of the event is set; [blocked()] then answers [True]
    although [wait()] returns at once. *)
Theorem event_set_with_zero_counter :
  exists s,
    scenario 0 0 (Some 0) [OpSet] = Ok tt s /\
    reachable 0 (Some 0) s /\
    _counter s = 0 /\ _event s = true /\
    run 0 blocked s = Ok true s /\
    run 0 (wait None) s = Ok tt s.
Proof.
  eexists. split; [reflexivity |]. split; [| repeat split].
  eapply (reach_set _ _ 0); [apply (reach_init _ _ 0); reflexivity | reflexivity].
Qed.

(** ** blocked() *)

(** C3: in every reachable state, [blocked()] returns true if and only if the
    counter is 0 there, and leaves the state as it was. *)
Theorem blocked_iff_counter_zero (t : tid) (value : Z) (max : option Z)
    (s : CountedEvent) :
  reachable value max s ->
  exists b, run t blocked s = Ok b s /\ (b = true <-> _counter s = 0).
Proof.
  intros H. exists (_counter s =? 0). split.
  - apply run_blocked. exact (reachable_mutex_free _ _ _ H).
  - apply Z.eqb_eq.
Qed.

Lemma blocked_iff_counter_zero_witness :
  reachable 0 (Some 3) (mkCountedEvent 1 (Some 3) None true) /\
  exists b,
    run 0 blocked (mkCountedEvent 1 (Some 3) None true)
    = Ok b (mkCountedEvent 1 (Some 3) None true) /\
    (b = true <-> _counter (mkCountedEvent 1 (Some 3) None true) = 0).
Proof.
  assert (Hreach : reachable 0 (Some 3) (mkCountedEvent 1 (Some 3) None true)).
  { eapply (reach_set _ _ 0);
      [apply (reach_init _ _ 0); reflexivity | reflexivity]. }
  split; [exact Hreach |].
  exact (blocked_iff_counter_zero 0 0 (Some 3) _ Hreach).
Defined.

(** ** Saturation at the ceiling *)

(** C4: with a ceiling [m] (non-negative, as the data model has it), the
    counter never exceeds [m] in a reachable state, and [set()] in a state
    whose counter is [m] leaves it at [m]. *)
Theorem counter_never_exceeds_max (t : tid) (value m : Z) (s : CountedEvent) :
  0 <= m ->
  reachable value (Some m) s ->
  _counter s <= m /\
  (_counter s = m ->
   exists s', run t set s = Ok tt s' /\ _counter s' = m).
Proof.
  intros Hm H.
  destruct (reachable_counter_clamped value (Some m) s Hm H) as (v & Hc & _).
  split; [rewrite Hc; unfold clamp; lia |].
  intros Hfull. eexists. split.
  - apply run_set. exact (reachable_mutex_free _ _ _ H).
  - rewrite internal_set_post_counter;
      rewrite (reachable_max _ _ _ H); [| exact Hm].
    unfold clamp. lia.
Qed.

Lemma counter_never_exceeds_max_witness :
  reachable 0 (Some 1) (mkCountedEvent 1 (Some 1) None true) /\
  _counter (mkCountedEvent 1 (Some 1) None true) <= 1 /\
  exists s', run 0 set (mkCountedEvent 1 (Some 1) None true) = Ok tt s' /\
             _counter s' = 1.
Proof.
  assert (Hreach : reachable 0 (Some 1) (mkCountedEvent 1 (Some 1) None true)).
  { eapply (reach_set _ _ 0);
      [apply (reach_init _ _ 0); reflexivity | reflexivity]. }
  split; [exact Hreach |].
  destruct (counter_never_exceeds_max 0 0 1 _ ltac:(lia) Hreach) as [Hle Hfull].
  split; [exact Hle | apply Hfull; reflexivity].
Defined.

(** ** No underflow *)

(** C5: with a ceiling allowed by the data model (absent or non-negative),
    the counter is never negative in a reachable state, and [clear()] in a
    state whose counter is 0 leaves the counter at 0 and the event
    unsignaled. *)
Theorem counter_never_negative (t : tid) (value : Z) (max : option Z)
    (s : CountedEvent) :
  valid_max max ->
  reachable value max s ->
  0 <= _counter s /\
  (_counter s = 0 ->
   exists s', run t (clear false) s = Ok tt s' /\
              _counter s' = 0 /\ _event s' = false).
Proof.
  intros Hvalid H.
  destruct (reachable_counter_clamped _ _ _ Hvalid H) as (v & Hc & _).
  split; [rewrite Hc; unfold clamp; lia |].
  intros Hzero. eexists. split.
  - apply (run_clear t false). exact (reachable_mutex_free _ _ _ H).
  - rewrite Hzero. split; reflexivity.
Qed.

Lemma counter_never_negative_witness :
  valid_max (Some 3) /\
  reachable 0 (Some 3) (mkCountedEvent 0 (Some 3) None false) /\
  0 <= _counter (mkCountedEvent 0 (Some 3) None false) /\
  exists s', run 0 (clear false) (mkCountedEvent 0 (Some 3) None false)
             = Ok tt s' /\
             _counter s' = 0 /\ _event s' = false.
Proof.
  assert (Hvalid : valid_max (Some 3)) by (simpl; lia).
  assert (Hreach : reachable 0 (Some 3) (mkCountedEvent 0 (Some 3) None false))
    by (apply (reach_init _ _ 0); reflexivity).
  split; [exact Hvalid |]. split; [exact Hreach |].
  destruct (counter_never_negative 0 0 (Some 3) _ Hvalid Hreach) as [Hge Hzero].
  split; [exact Hge | apply Hzero; reflexivity].
Defined.

(** ** A worked scenario *)

(** C6: [CountedEvent(0, 3)]; four [set()] give counter 3 and [blocked()]
    false; three [clear()] then give counter 0 and [blocked()] true; one more
    [clear()] keeps counter 0 and [blocked()] true. *)
Theorem scenario_max_three (t : tid) :
  exists s1 s2 s3,
    scenario t 0 (Some 3) [OpSet; OpSet; OpSet; OpSet] = Ok tt s1 /\
    _counter s1 = 3 /\ run t blocked s1 = Ok false s1 /\
    run_ops t [OpClear false; OpClear false; OpClear false] s1 = Ok tt s2 /\
    _counter s2 = 0 /\ run t blocked s2 = Ok true s2 /\
    run_ops t [OpClear false] s2 = Ok tt s3 /\
    _counter s3 = 0 /\ run t blocked s3 = Ok true s3.
Proof.
  do 3 eexists.
  split; [reflexivity |]. split; [reflexivity |]. split; [reflexivity |].
  split; [reflexivity |]. split; [reflexivity |]. split; [reflexivity |].
  split; [reflexivity |]. split; reflexivity.
Qed.

(** ** Complete clear *)

(** C7: in every reachable state, whatever the counter and the ceiling,
    [clear(completely=True)] succeeds, sets the counter to 0 and leaves the
    event unsignaled; in particular [CountedEvent(2)] followed by
    [clear(completely=True)] has counter 0. *)
Theorem clear_completely_resets (t : tid) (value : Z) (max : option Z)
    (s : CountedEvent) :
  reachable value max s ->
  (exists s', run t (clear true) s = Ok tt s' /\
              _counter s' = 0 /\ _event s' = false) /\
  (exists s2, scenario t 2 None [OpClear true] = Ok tt s2 /\
              _counter s2 = 0 /\ _event s2 = false).
Proof.
  intros H. split.
  - eexists. split.
    + apply (run_clear t true). exact (reachable_mutex_free _ _ _ H).
    + split; reflexivity.
  - eexists. split; [reflexivity |]. split; reflexivity.
Qed.

Lemma clear_completely_resets_witness :
  reachable 2 None (mkCountedEvent 2 None None true) /\
  (exists s', run 0 (clear true) (mkCountedEvent 2 None None true) = Ok tt s' /\
              _counter s' = 0 /\ _event s' = false) /\
  (exists s2, scenario 0 2 None [OpClear true] = Ok tt s2 /\
              _counter s2 = 0 /\ _event s2 = false).
Proof.
  assert (Hreach : reachable 2 None (mkCountedEvent 2 None None true))
    by (apply (reach_init _ _ 0); reflexivity).
  split; [exact Hreach |].
  exact (clear_completely_resets 0 2 None _ Hreach).
Defined.

(** ** set() *)

(** C8: in every reachable state [set()] succeeds; it adds exactly 1 to the
    counter when there is no ceiling or the counter is below the ceiling; and
    when it takes the counter from 0 to at least 1 the event is signaled
    afterwards. *)
Theorem set_always_succeeds (t : tid) (value : Z) (max : option Z)
    (s : CountedEvent) :
  reachable value max s ->
  exists s',
    run t set s = Ok tt s' /\
    ((max = None \/ exists m, max = Some m /\ _counter s < m) ->
     _counter s' = _counter s + 1) /\
    (_counter s = 0 -> 1 <= _counter s' -> _event s' = true).
Proof.
  intros H.
  pose proof (reachable_mutex_free _ _ _ H) as Hfree.
  pose proof (reachable_max _ _ _ H) as Hmax.
  pose proof (reachable_counter_weak _ _ _ H) as Hweak.
  eexists. split; [apply run_set; exact Hfree |]. split.
  - intros Hroom. unfold internal_set_post. rewrite Hmax.
    destruct Hroom as [-> | (m & -> & Hlt)].
    + destruct Hweak as [Hpos | Habs]; [| discriminate].
      destruct (Z.leb_spec (_counter s + 1) 0); simpl; lia.
    + destruct Hweak as [Hpos | Habs]; [| injection Habs as ->; lia].
      destruct (Z.leb_spec (_counter s + 1) 0); simpl; [lia |].
      destruct (Z.gtb_spec (_counter s + 1) m); lia.
  - intros Hzero _. rewrite internal_set_post_event, Hzero. reflexivity.
Qed.

Lemma set_always_succeeds_witness :
  reachable 0 (Some 3) (mkCountedEvent 0 (Some 3) None false) /\
  exists s',
    run 0 set (mkCountedEvent 0 (Some 3) None false) = Ok tt s' /\
    _counter s' = 1 /\ _event s' = true.
Proof.
  assert (Hreach : reachable 0 (Some 3) (mkCountedEvent 0 (Some 3) None false))
    by (apply (reach_init _ _ 0); reflexivity).
  split; [exact Hreach |].
  destruct (set_always_succeeds 0 0 (Some 3) _ Hreach)
    as (s' & Hrun & Hincr & Hsignal).
  assert (Hone : _counter s' = 1).
  { apply Hincr. right. exists 3. split; [reflexivity | simpl; lia]. }
  exists s'. split; [exact Hrun |]. split; [exact Hone |].
  apply Hsignal; [reflexivity | lia].
Defined.

(** ** The constructor *)

(** C10: [CountedEvent(value, max)] always succeeds; when [value <= 0] the
    counter is 0 and the event unsignaled; when [value > 0] the counter is
    [min(value, max)] (or [value] without a ceiling) and the event is
    signaled, also when the ceiling is 0, where the counter is 0 and the
    event signaled all the same. *)
Theorem init_clamps_value (t : tid) (value : Z) (max : option Z) :
  exists s,
    __init__ t value max = Ok tt s /\
    _max s = max /\ _mutex s = None /\
    (value <= 0 -> _counter s = 0 /\ _event s = false) /\
    (0 < value ->
     _counter s = match max with Some m => Z.min value m | None => value end /\
     _event s = true) /\
    (0 < value -> max = Some 0 -> _counter s = 0 /\ _event s = true).
Proof.
  exists (internal_set_post value (fresh max)).
  split; [apply init_ok |].
  rewrite internal_set_post_max, internal_set_post_mutex.
  split; [reflexivity |]. split; [reflexivity |].
  unfold internal_set_post. simpl.
  destruct (Z.leb_spec value 0) as [Hle | Hgt]; simpl.
  - repeat split; intros; lia.
  - split; [intros; lia |]. split.
    + intros _. split; [| reflexivity].
      destruct max as [m |]; [| reflexivity].
      destruct (Z.gtb_spec value m); lia.
    + intros _ ->. split; [| reflexivity].
      destruct (Z.gtb_spec value 0); lia.
Qed.

Lemma init_clamps_value_witness :
  exists s,
    __init__ 0 5 (Some 0) = Ok tt s /\ _counter s = 0 /\ _event s = true.
Proof.
  destruct (init_clamps_value 0 5 (Some 0))
    as (s & Hinit & _ & _ & _ & _ & Hzero).
  exists s. split; [exact Hinit |]. apply Hzero; [lia | reflexivity].
Defined.

(** ** wait() and the lock *)

Lemma thread_step_mutex t {A : Type} (p p' : prog A) s s' :
  thread_step t p s = Some (p', s') ->
  _mutex s' = _mutex s \/ _mutex s' = Some t \/ _mutex s' = None.
Proof.
  destruct p as [a | X e k]; simpl; [discriminate |].
  destruct e; simpl;
    try (intros H; injection H as _ <-; left; reflexivity).
  - destruct (_mutex s); [discriminate |].
    intros H; injection H as _ <-. right; left; reflexivity.
  - destruct (_mutex s); [| discriminate].
    intros H; injection H as _ <-. right; right; reflexivity.
  - destruct (_event s); [| destruct timeout; [| discriminate]];
      intros H; injection H as _ <-; left; reflexivity.
Qed.

Lemma thread_step_wait t timeout s p' s' :
  thread_step t (wait timeout) s = Some (p', s') -> p' = Ret tt /\ s' = s.
Proof.
  unfold wait, perform. simpl.
  destruct (_event s); [| destruct timeout; [| discriminate]];
    intros H; injection H as <- <-; split; reflexivity.
Qed.

(** A thread in [wait], or back from it, that does not hold the lock keeps
    not holding it, whatever all threads do. *)
Lemma waiter_never_holds (w : tid) (timeout : option Z)
    (cfg cfg' : CountedEvent * list (prog unit)) :
  rtc step cfg cfg' ->
  (cfg.2 !! w = Some (wait timeout) \/ cfg.2 !! w = Some (Ret tt)) ->
  ~ holds w cfg.1 ->
  (cfg'.2 !! w = Some (wait timeout) \/ cfg'.2 !! w = Some (Ret tt)) /\
  ~ holds w cfg'.1.
Proof.
  induction 1 as [cfg | cfg1 cfg2 cfg3 Hstep _ IH]; [tauto |].
  intros Hprog Hfree. apply IH; clear IH.
  - destruct Hstep as [t p p' s s' ps Hlook Hthread]. simpl in *.
    destruct (decide (t = w)) as [-> | Hne].
    + right. rewrite Hlook in Hprog.
      destruct Hprog as [[= ->] | [= ->]]; [| discriminate].
      apply thread_step_wait in Hthread as [-> _].
      apply list_lookup_insert_eq. eapply lookup_lt_Some; eassumption.
    + rewrite list_lookup_insert_ne by exact Hne. exact Hprog.
  - destruct Hstep as [t p p' s s' ps Hlook Hthread]. simpl in *.
    unfold holds in *.
    destruct (decide (t = w)) as [-> | Hne].
    + rewrite Hlook in Hprog.
      destruct Hprog as [[= ->] | [= ->]]; [| discriminate].
      apply thread_step_wait in Hthread as [_ ->]. exact Hfree.
    + apply thread_step_mutex in Hthread as [-> | [-> | ->]];
        [exact Hfree | congruence | discriminate].
Qed.

(** A thread that is left alone by the others goes through its call as
    [run] says. *)
Lemma run_steps (t : tid) (p : prog unit) (ps : list (prog unit)) s r s' :
  ps !! t = Some p ->
  run t p s = Ok r s' ->
  rtc step (s, ps) (s', <[t := Ret r]> ps).
Proof.
  revert s ps. induction p as [a | X e k IH]; intros s ps Hlook Hrun.
  - simpl in Hrun. injection Hrun as -> ->.
    rewrite list_insert_id by exact Hlook. apply rtc_refl.
  - simpl in Hrun. destruct (handle t e s) as [x s1 | |] eqn:Hhandle;
      try discriminate.
    eapply rtc_l.
    + apply (step_thread t (Do e k) (k x) s s1 ps Hlook).
      simpl. rewrite Hhandle. reflexivity.
    + rewrite <- (list_insert_insert_eq ps t (Ret r) (k x)).
      apply (IH x); [| exact Hrun].
      apply list_lookup_insert_eq. eapply lookup_lt_Some; eassumption.
Qed.

Lemma wait_is_not_invoke timeout o : wait timeout <> invoke o.
Proof.
  intros Heq.
  assert (H : thread_step 0%nat (wait timeout) (mkCountedEvent 0 None (Some 0%nat) true)
              = thread_step 0%nat (invoke o) (mkCountedEvent 0 None (Some 0%nat) true))
    by (rewrite Heq; reflexivity).
  destruct o as [| [|]]; discriminate H.
Qed.

(** C9: a thread in [wait(timeout)] never holds the lock that serializes
    [set] and [clear], whatever the threads do and in particular while it is
    blocked; so with the lock free, another thread's [set()] or [clear()]
    runs to completion while the waiting thread stays in its [wait], which
    is indeed blocked when the event is unsignaled and there is no timeout. *)
Theorem wait_never_holds_mutex (w t : tid) (timeout : option Z) (o : op)
    (s : CountedEvent) (ps : list (prog unit)) :
  ps !! w = Some (wait timeout) ->
  ps !! t = Some (invoke o) ->
  _mutex s = None ->
  (forall s' ps', rtc step (s, ps) (s', ps') -> ~ holds w s') /\
  (exists s',
     run t (invoke o) s = Ok tt s' /\
     rtc step (s, ps) (s', <[t := Ret tt]> ps) /\
     <[t := Ret tt]> ps !! w = Some (wait timeout)) /\
  (_event s = false -> timeout = None ->
   thread_step w (wait timeout) s = None).
Proof.
  intros Hwait Hcall Hfree. split; [| split].
  - intros s' ps' Hsteps.
    apply (waiter_never_holds w timeout (s, ps) (s', ps') Hsteps).
    + left. exact Hwait.
    + unfold holds. simpl. rewrite Hfree. discriminate.
  - assert (Hrun : exists s', run t (invoke o) s = Ok tt s').
    { destruct o as [| c]; simpl; eexists;
        [apply run_set | apply run_clear]; exact Hfree. }
    destruct Hrun as (s' & Hrun). exists s'.
    split; [exact Hrun |]. split; [exact (run_steps t _ ps s tt s' Hcall Hrun) |].
    rewrite list_lookup_insert_ne; [exact Hwait |].
    intros ->. rewrite Hwait in Hcall. injection Hcall as Heq.
    exact (wait_is_not_invoke _ _ Heq).
  - intros Hflag ->. unfold wait, perform. simpl. rewrite Hflag. reflexivity.
Qed.

Lemma wait_never_holds_mutex_witness :
  [wait None; set] !! 0%nat = Some (wait None) /\
  [wait None; set] !! 1%nat = Some (invoke OpSet) /\
  _mutex (fresh None) = None /\
  (forall s' ps',
     rtc step (fresh None, [wait None; set]) (s', ps') -> ~ holds 0 s') /\
  (exists s',
     run 1 set (fresh None) = Ok tt s' /\
     rtc step (fresh None, [wait None; set]) (s', [wait None; Ret tt])) /\
  thread_step 0 (wait None) (fresh None) = None.
Proof.
  assert (Hwait : [wait None; set] !! 0%nat = Some (wait None)) by reflexivity.
  assert (Hcall : [wait None; set] !! 1%nat = Some (invoke OpSet)) by reflexivity.
  assert (Hfree : _mutex (fresh None) = None) by reflexivity.
  destruct (wait_never_holds_mutex 0 1 None OpSet (fresh None) [wait None; set]
              Hwait Hcall Hfree)
    as (Hnever & (s' & Hrun & Hsteps & _) & Hblocked).
  split; [exact Hwait |]. split; [exact Hcall |]. split; [exact Hfree |].
  split; [exact Hnever |]. split.
  - exists s'. split; [exact Hrun | exact Hsteps].
  - apply Hblocked; reflexivity.
Defined.

(** For contrast: were the event waited for inside [with self._mutex], a
    blocked waiter would hold the lock, and a [set()] that could release it
    would never get to start. *)
Lemma waiting_under_mutex_deadlocks (s : CountedEvent) :
  _mutex s = None -> _event s = false ->
  exists s1 ps1,
    step (s, [with_mutex (wait None); set]) (s1, ps1) /\
    holds 0 s1 /\
    forall cfg, ~ step (s1, ps1) cfg.
Proof.
  intros Hfree Hflag.
  exists (with_mutex_state (Some 0%nat) s),
    [r <- wait None ;; perform Release ;; Ret r; set].
  split; [| split].
  - apply (step_thread 0 (with_mutex (wait None))
             (r <- wait None ;; perform Release ;; Ret r) s
             (with_mutex_state (Some 0%nat) s)
             [with_mutex (wait None); set]); [reflexivity |].
    simpl. rewrite Hfree. reflexivity.
  - reflexivity.
  - intros cfg Hstep. inversion Hstep as [t p p' s0 s' ps Hlook Hthread]; subst.
    destruct t as [| [| t]]; simpl in Hlook; try discriminate Hlook.
    + injection Hlook as <-. simpl in Hthread. rewrite Hflag in Hthread.
      discriminate Hthread.
    + injection Hlook as <-. discriminate Hthread.
Qed.

(** * More on CountedEvent *)

(** X1: [set()] releases a waiter.  With the lock free and a counter that
    is not negative, a thread's [set()] runs to completion and leaves the
    event signaled, after which a thread that was in [wait] returns, with or
    without a timeout. *)
Theorem set_releases_waiter (w t : tid) (timeout : option Z)
    (s : CountedEvent) (ps : list (prog unit)) :
  ps !! w = Some (wait timeout) ->
  ps !! t = Some set ->
  _mutex s = None ->
  0 <= _counter s ->
  exists s',
    run t set s = Ok tt s' /\
    _event s' = true /\
    rtc step (s, ps) (s', <[w := Ret tt]> (<[t := Ret tt]> ps)).
Proof.
  intros Hwait Hset Hfree Hcount.
  pose proof (run_set t s Hfree) as Hrun.
  exists (internal_set_post (_counter s + 1) s).
  split; [exact Hrun |].
  assert (Hflag : _event (internal_set_post (_counter s + 1) s) = true).
  { rewrite internal_set_post_event.
    destruct (Z.leb_spec (_counter s + 1) 0); [lia | reflexivity]. }
  split; [exact Hflag |].
  eapply rtc_r; [exact (run_steps t set ps s tt _ Hset Hrun) |].
  assert (Hne : t <> w).
  { intros ->. rewrite Hwait in Hset.
    apply (wait_is_not_invoke timeout OpSet).
    exact (f_equal (default (Ret tt)) Hset). }
  apply (step_thread w (wait timeout) (Ret tt)).
  - rewrite list_lookup_insert_ne by exact Hne. exact Hwait.
  - unfold wait, perform. simpl. rewrite Hflag. reflexivity.
Qed.

Lemma set_releases_waiter_witness :
  exists s',
    run 1 set (fresh None) = Ok tt s' /\
    _event s' = true /\
    rtc step (fresh None, [wait None; set]) (s', [Ret tt; Ret tt]).
Proof.
  apply (set_releases_waiter 0 1 None (fresh None) [wait None; set]);
    [reflexivity | reflexivity | reflexivity | simpl; lia].
Defined.

(** X2: below the ceiling, [set()] followed by [clear()] undoes itself: in
    a reachable state of an object whose ceiling is absent or at least 1,
    with no ceiling or a counter below it, the two calls bring the object
    back to the very state it was in. *)
Theorem set_then_clear_restores (t : tid) (value : Z) (max : option Z)
    (s : CountedEvent) :
  valid_max max -> max <> Some 0 ->
  reachable value max s ->
  (max = None \/ exists m, max = Some m /\ _counter s < m) ->
  run_ops t [OpSet; OpClear false] s = Ok tt s.
Proof.
  intros Hvalid Hnz Hreach Hroom.
  pose proof (reachable_mutex_free _ _ _ Hreach) as Hfree.
  pose proof (reachable_max _ _ _ Hreach) as Hmax.
  pose proof (event_iff_counter_positive _ _ _ Hvalid Hnz Hreach) as Hflag.
  destruct (reachable_counter_clamped _ _ _ Hvalid Hreach) as (v & Hc & _).
  assert (Hge : 0 <= _counter s) by (rewrite Hc; unfold clamp; lia).
  clear v Hc.
  cbn [run_ops invoke]. rewrite (run_set t s Hfree). cbn [and_then].
  rewrite run_clear by (rewrite internal_set_post_mutex; exact Hfree).
  cbn [and_then]. f_equal.
  destruct s as [c mx l e]. simpl in *. subst mx l.
  unfold internal_set_post. simpl.
  destruct (Z.leb_spec (c + 1) 0) as [| Hpos]; [lia |]. simpl.
  assert (Hkeep : match max with
                  | Some m => if c + 1 >? m then m else c + 1
                  | None => c + 1
                  end = c + 1).
  { destruct Hroom as [-> | (m & -> & Hlt)]; [reflexivity |].
    destruct (Z.gtb_spec (c + 1) m); [lia | reflexivity]. }
  rewrite Hkeep. replace (c + 1 - 1) with c by lia.
  destruct (Z.leb_spec c 0) as [Hzero | Hposc].
  - assert (c = 0) by lia. subst c. f_equal.
    destruct e; [| reflexivity]. destruct Hflag as [Hflag _].
    specialize (Hflag eq_refl). lia.
  - assert (Hc' : match max with
                  | Some m => if c >? m then m else c
                  | None => c
                  end = c).
    { destruct Hroom as [-> | (m & -> & Hlt)]; [reflexivity |].
      destruct (Z.gtb_spec c m); [lia | reflexivity]. }
    rewrite Hc'. f_equal. destruct e; [reflexivity |].
    destruct Hflag as [_ Hflag]. specialize (Hflag Hposc). discriminate Hflag.
Qed.

Lemma set_then_clear_restores_witness :
  run_ops 0 [OpSet; OpClear false] (mkCountedEvent 1 (Some 3) None true)
  = Ok tt (mkCountedEvent 1 (Some 3) None true).
Proof.
  apply (set_then_clear_restores 0 0 (Some 3)).
  - simpl. lia.
  - discriminate.
  - eapply (reach_set _ _ 0);
      [apply (reach_init _ _ 0); reflexivity | reflexivity].
  - right. exists 3. split; [reflexivity | simpl; lia].
Defined.

(** ** Interleaved calls *)

Lemma run_ops_app t ops1 ops2 s :
  run_ops t (ops1 ++ ops2) s
  = and_then (run_ops t ops1 s) (fun _ s' => run_ops t ops2 s').
Proof.
  revert s. induction ops1 as [| o ops1 IH]; intros s; simpl; [reflexivity |].
  destruct (run t (invoke o) s) as [[] s' | |]; simpl; [apply IH | reflexivity ..].
Qed.

(** With the lock free, a call does the same whoever makes it. *)
Lemma run_invoke_tid t t' o s :
  _mutex s = None -> run t (invoke o) s = run t' (invoke o) s.
Proof.
  intros Hfree. destruct o as [| c]; cbn [invoke].
  - rewrite !run_set by exact Hfree. reflexivity.
  - rewrite !run_clear by exact Hfree. reflexivity.
Qed.

Lemma thread_step_run t (p p' : prog unit) s s' :
  thread_step t p s = Some (p', s') -> run t p s = run t p' s'.
Proof.
  destruct p as [a | X e k]; simpl; [discriminate |].
  destruct (handle t e s) as [x s1 | |]; [| discriminate ..].
  intros [= <- <-]. reflexivity.
Qed.

Local Ltac solve_critical :=
  repeat (simpl; intros;
          try match goal with
              | |- context [if ?b then _ else _] => destruct b
              | |- context [match ?m with Some _ => _ | None => _ end] =>
                  destruct m
              end);
  repeat match goal with x : unit |- _ => destruct x end;
  try reflexivity.

(** The first step of a call takes the lock, which has to be free. *)
Lemma invoke_first_step t o s p' s' :
  thread_step t (invoke o) s = Some (p', s') ->
  _mutex s = None /\ s' = with_mutex_state (Some t) s /\ critical p'.
Proof.
  destruct o as [| [|]]; simpl; destruct (_mutex s); try discriminate;
    intros [= <- <-]; (split; [reflexivity |]); (split; [reflexivity |]);
    solve_critical.
Qed.

(** A step inside the critical section either stays inside it, the lock
    still held, or is the release that ends the call. *)
Lemma critical_step t (p p' : prog unit) s s' :
  critical p ->
  thread_step t p s = Some (p', s') ->
  (critical p' /\ _mutex s' = _mutex s) \/
  (p' = Ret tt /\ _mutex s' = None).
Proof.
  destruct p as [a | X e k]; simpl; [contradiction |].
  destruct e; simpl; intros Hcrit;
    try contradiction;
    try (intros [= <- <-]; left; split; [apply Hcrit | reflexivity]).
  destruct (_mutex s); [| discriminate].
  intros [= <- <-]. right. split; [exact Hcrit | reflexivity].
Qed.

Lemma waiting_fmap ops : waiting (Waiting <$> ops) = ops.
Proof.
  unfold waiting. induction ops as [| o ops IH]; csimpl; [reflexivity |].
  rewrite IH. reflexivity.
Qed.

Lemma waiting_start ts i o :
  ts !! i = Some (Waiting o) ->
  waiting ts ≡ₚ o :: waiting (<[i := Running o]> ts).
Proof.
  unfold waiting. revert i. induction ts as [| st ts IH]; intros [| i] Hi;
    try discriminate Hi; csimpl in *.
  - injection Hi as ->. reflexivity.
  - specialize (IH i Hi). destruct st as [o' | o' | o']; csimpl;
      [| exact IH | exact IH].
    etrans; [apply Permutation_skip, IH | apply Permutation_swap].
Qed.

Lemma waiting_finish ts i o :
  ts !! i = Some (Running o) ->
  waiting (<[i := Finished o]> ts) = waiting ts.
Proof.
  unfold waiting. revert i. induction ts as [| st ts IH]; intros [| i] Hi;
    try discriminate Hi; csimpl in *.
  - injection Hi as ->. reflexivity.
  - specialize (IH i Hi). destruct st; csimpl; rewrite IH; reflexivity.
Qed.

Lemma waiting_nil ts :
  (forall i st, ts !! i = Some st -> exists o, st = Finished o) ->
  waiting ts = [].
Proof.
  unfold waiting. induction ts as [| st ts IH]; intros Hall; csimpl;
    [reflexivity |].
  destruct (Hall 0%nat st eq_refl) as [o ->]. csimpl.
  apply IH. intros i st Hi. exact (Hall (S i) st Hi).
Qed.

Lemma invoke_not_Ret o : invoke o <> Ret tt.
Proof. destruct o as [| [|]]; discriminate. Qed.

Lemma serial_inv_init t0 s0 ops :
  _mutex s0 = None -> serial_inv t0 s0 ops (s0, invoke <$> ops).
Proof.
  intros Hfree. exists (Waiting <$> ops), []. cbn [fst snd app].
  split; [rewrite !length_fmap; reflexivity |].
  split; [| split].
  - intros i st p Hst Hp. cbn [snd] in Hp.
    rewrite list_lookup_fmap in Hst. rewrite list_lookup_fmap in Hp.
    destruct (ops !! i) as [o |]; [| discriminate].
    injection Hst as <-. injection Hp as <-. reflexivity.
  - rewrite waiting_fmap. reflexivity.
  - rewrite Hfree. reflexivity.
Qed.

Lemma serial_inv_step t0 s0 ops cfg cfg' :
  serial_inv t0 s0 ops cfg -> step cfg cfg' -> serial_inv t0 s0 ops cfg'.
Proof.
  intros (ts & hist & Hlen & Hrel & Hperm & Hlock) Hstep.
  destruct Hstep as [j p p' s s' ps Hp Hthread]. cbn [fst snd] in *.
  assert (Hj : (j < length ts)%nat)
    by (rewrite Hlen; eapply lookup_lt_Some; exact Hp).
  destruct (lookup_lt_is_Some_2 ts j Hj) as [st Hst].
  pose proof (Hrel j st p Hst Hp) as Hrelj.
  destruct st as [o | o | o]; simpl in Hrelj.
  - (* the call starts: it takes the lock *)
    subst p. pose proof (thread_step_run _ _ _ _ _ Hthread) as Hrun.
    apply invoke_first_step in Hthread as (Hfree & -> & Hcrit).
    rewrite Hfree in Hlock.
    exists (<[j := Running o]> ts), (hist ++ [o]). cbn [fst snd].
    split; [rewrite !length_insert; exact Hlen |]. split; [| split].
    + intros i st q Hi Hq. destruct (decide (i = j)) as [-> | Hne].
      * rewrite list_lookup_insert_eq in Hi by exact Hj.
        rewrite list_lookup_insert_eq in Hq by (rewrite <- Hlen; exact Hj).
        injection Hi as <-. injection Hq as <-. split; [exact Hcrit | reflexivity].
      * rewrite list_lookup_insert_ne in Hi by congruence.
        rewrite list_lookup_insert_ne in Hq by congruence.
        pose proof (Hrel i st q Hi Hq) as Hold.
        destruct st; simpl in *; try exact Hold.
        destruct Hold as [_ Hheld]. congruence.
    + rewrite <- Hperm, (waiting_start ts j o Hst), <- app_assoc. reflexivity.
    + simpl. exists o, hist, s, p'.
      split; [apply list_lookup_insert_eq; exact Hj |].
      split; [apply list_lookup_insert_eq; rewrite <- Hlen; exact Hj |].
      split; [reflexivity |]. split; [exact Hlock |].
      split; [exact Hfree | symmetry; exact Hrun].
  - (* a step of the call that holds the lock *)
    destruct Hrelj as [Hcrit Hheld]. rewrite Hheld in Hlock.
    destruct Hlock as (o' & hist' & s_pre & q & Hst' & Hq & -> & Hhist & Hpre & Hrun).
    rewrite Hst in Hst'. injection Hst' as <-.
    rewrite Hp in Hq. injection Hq as <-.
    pose proof (thread_step_run _ _ _ _ _ Hthread) as Hrun'.
    destruct (critical_step _ _ _ _ _ Hcrit Hthread)
      as [[Hcrit' Hsame] | [-> Hreleased]].
    + exists ts, (hist' ++ [o]). cbn [fst snd].
      split; [rewrite length_insert; exact Hlen |]. split; [| split].
      * intros i st q Hi Hq. destruct (decide (i = j)) as [-> | Hne].
        -- rewrite list_lookup_insert_eq in Hq by (rewrite <- Hlen; exact Hj).
           injection Hq as <-. rewrite Hst in Hi. injection Hi as <-.
           split; [exact Hcrit' | congruence].
        -- rewrite list_lookup_insert_ne in Hq by congruence.
           pose proof (Hrel i st q Hi Hq) as Hold.
           destruct st; simpl in *; try exact Hold.
           destruct Hold as [_ Hheld']. congruence.
      * exact Hperm.
      * rewrite Hsame, Hheld. exists o, hist', s_pre, p'.
        split; [exact Hst |].
        split; [apply list_lookup_insert_eq; rewrite <- Hlen; exact Hj |].
        split; [reflexivity |]. split; [exact Hhist |].
        split; [exact Hpre | congruence].
    + exists (<[j := Finished o]> ts), (hist' ++ [o]). cbn [fst snd].
      split; [rewrite !length_insert; exact Hlen |]. split; [| split].
      * intros i st q Hi Hq. destruct (decide (i = j)) as [-> | Hne].
        -- rewrite list_lookup_insert_eq in Hi by exact Hj.
           rewrite list_lookup_insert_eq in Hq by (rewrite <- Hlen; exact Hj).
           injection Hi as <-. injection Hq as <-. reflexivity.
        -- rewrite list_lookup_insert_ne in Hi by congruence.
           rewrite list_lookup_insert_ne in Hq by congruence.
           pose proof (Hrel i st q Hi Hq) as Hold.
           destruct st; simpl in *; try exact Hold.
           destruct Hold as [_ Hheld']. congruence.
      * rewrite (waiting_finish ts j o Hst). exact Hperm.
      * rewrite Hreleased, run_ops_app, Hhist. simpl.
        rewrite (run_invoke_tid t0 j o s_pre Hpre), <- Hrun, Hrun'.
        reflexivity.
  - (* a call that has returned does nothing more *)
    subst p. discriminate Hthread.
Qed.

Lemma serial_inv_steps t0 s0 ops cfg cfg' :
  serial_inv t0 s0 ops cfg -> rtc step cfg cfg' -> serial_inv t0 s0 ops cfg'.
Proof.
  intros Hinv Hsteps. induction Hsteps as [cfg | cfg1 cfg2 cfg3 Hstep _ IH];
    [exact Hinv |].
  apply IH. exact (serial_inv_step _ _ _ _ _ Hinv Hstep).
Qed.

(** X3: interleaved [set()] and [clear()] calls are serializable.  Threads
    making the calls [ops], one each, start with the lock free; however their
    steps interleave, once all have returned the object is in the state that
    the same calls made one after another, in the order in which they took
    the lock, would leave. *)
Theorem interleaving_serializable (t0 : tid) (ops : list op)
    (s s' : CountedEvent) (ps' : list (prog unit)) :
  _mutex s = None ->
  rtc step (s, invoke <$> ops) (s', ps') ->
  Forall (fun p => p = Ret tt) ps' ->
  exists ops', ops' ≡ₚ ops /\ run_ops t0 ops' s = Ok tt s'.
Proof.
  intros Hfree Hsteps Hdone.
  pose proof (serial_inv_steps t0 s ops _ _ (serial_inv_init t0 s ops Hfree)
                Hsteps) as (ts & hist & Hlen & Hrel & Hperm & Hlock).
  cbn [fst snd] in *.
  assert (Hfin : forall i st, ts !! i = Some st -> exists o, st = Finished o).
  { intros i st Hi.
    destruct (lookup_lt_is_Some_2 ps' i) as [p Hp];
      [rewrite <- Hlen; eapply lookup_lt_Some; exact Hi |].
    pose proof (Hrel i st p Hi Hp) as Hst.
    rewrite Forall_forall in Hdone.
    pose proof (Hdone p (list_elem_of_lookup_2 _ _ _ Hp)) as ->.
    destruct st as [o | o | o]; simpl in Hst.
    - exfalso. exact (invoke_not_Ret o (eq_sym Hst)).
    - destruct Hst as [[] _].
    - eauto. }
  rewrite (waiting_nil ts Hfin), app_nil_r in Hperm.
  exists hist. split; [exact Hperm |].
  destruct (_mutex s') as [i |]; [| exact Hlock].
  destruct Hlock as (o & _ & _ & _ & Hst & _).
  destruct (Hfin i _ Hst) as [o' Habs]. discriminate Habs.
Qed.

Lemma interleaving_serializable_witness :
  exists s' ops',
    rtc step (fresh None, invoke <$> [OpSet; OpClear false])
      (s', [Ret tt; Ret tt]) /\
    ops' ≡ₚ [OpSet; OpClear false] /\
    run_ops 0 ops' (fresh None) = Ok tt s'.
Proof.
  assert (Hsteps : rtc step (fresh None, invoke <$> [OpSet; OpClear false])
                     (mkCountedEvent 1 None None true, [Ret tt; Ret tt])).
  { trans (fresh None, [set; Ret tt]).
    - exact (run_steps 1 (clear false) [set; clear false] (fresh None) tt
               (fresh None) eq_refl eq_refl).
    - exact (run_steps 0 set [set; Ret tt] (fresh None) tt
               (mkCountedEvent 1 None None true) eq_refl eq_refl). }
  exists (mkCountedEvent 1 None None true).
  destruct (interleaving_serializable 0 [OpSet; OpClear false] (fresh None)
              (mkCountedEvent 1 None None true) [Ret tt; Ret tt] eq_refl Hsteps)
    as (ops' & Hperm & Hrun).
  - repeat constructor.
  - exists ops'. split; [exact Hsteps |]. split; assumption.
Defined.







(** * File names *)

(** ** Splitting at the last separator *)

Lemma rsplit1_None sep s : rsplit1 sep s = None <-> sep ∉ s.
Proof.
  induction s as [| c s IH]; simpl.
  - split; [intros _; apply not_elem_of_nil | reflexivity].
  - destruct (rsplit1 sep s) as [[before after] |].
    + split; [discriminate |]. intros Hnot. exfalso.
      assert (Habs : Some (before, after) = None)
        by (apply IH; intros Hin; apply Hnot; right; exact Hin).
      discriminate Habs.
    + destruct (decide (c = sep)) as [-> | Hne].
      * split; [discriminate |]. intros Hnot. exfalso. apply Hnot. left.
      * split; [| reflexivity]. intros _ Hin.
        apply elem_of_cons in Hin as [-> | Hin]; [congruence |].
        destruct IH as [IH _]. exact (IH eq_refl Hin).
Qed.

Lemma rsplit1_app sep before after :
  sep ∉ after -> rsplit1 sep (before ++ sep :: after) = Some (before, after).
Proof.
  intros Hnot. induction before as [| c before IH]; simpl.
  - apply rsplit1_None in Hnot. rewrite Hnot.
    destruct (decide (sep = sep)); [reflexivity | congruence].
  - rewrite IH. reflexivity.
Qed.



(** ** Decimal digits *)

Local Ltac solve_elem :=
  unfold digit_or_minus; apply (bool_decide_unpack _); vm_compute; reflexivity.

Lemma string_of_uint_digits d :
  Forall digit_or_minus
    (String.list_ascii_of_string (NilEmpty.string_of_uint d)).
Proof.
  induction d; simpl; constructor; try assumption; solve_elem.
Qed.

Lemma str_digits n : Forall digit_or_minus (str n).
Proof.
  unfold str. destruct (Z.to_int n) as [d | d]; simpl.
  - destruct d; try apply (string_of_uint_digits (_ _)).
    simpl. constructor; [solve_elem | constructor].
  - constructor; [solve_elem |].
    destruct d; try apply (string_of_uint_digits (_ _)).
    simpl. constructor; [solve_elem | constructor].
Qed.

Lemma str_not_elem (c : ascii) n : ~ digit_or_minus c -> c ∉ str n.
Proof.
  intros Hc Hin. pose proof (str_digits n) as Hall.
  rewrite Forall_forall in Hall. exact (Hc (Hall c Hin)).
Qed.

Lemma to_int_norm n : Decimal.norm (Z.to_int n) = Z.to_int n.
Proof. rewrite <- DecimalZ.to_of, DecimalZ.of_to. reflexivity. Qed.

Lemma to_int_nonnil n :
  Z.to_int n <> Decimal.Pos Decimal.Nil /\ Z.to_int n <> Decimal.Neg Decimal.Nil.
Proof.
  pose proof (to_int_norm n) as Hnorm.
  split; intros Heq; rewrite Heq in Hnorm; discriminate Hnorm.
Qed.

Lemma str_inj n n' : str n = str n' -> n = n'.
Proof.
  unfold str. intros H.
  apply (f_equal String.string_of_list_ascii) in H.
  rewrite !String.string_of_list_ascii_of_string in H.
  apply (f_equal NilZero.int_of_string) in H.
  rewrite !NilZero.isi in H by apply to_int_nonnil.
  injection H as H. apply to_int_inj. exact H.
Qed.

(** ** The search for a free name *)

Lemma tilde_not_digit : ~ digit_or_minus "~".
Proof. solve_elem. Qed.

Lemma dot_not_digit : ~ digit_or_minus ".".
Proof. solve_elem. Qed.

Lemma candidate_base filename extension c :
  candidate filename extension c
  = (slice_to (6 - power_of c + 1) filename ++ "~"%char :: str c)
      ++ "."%char :: extension.
Proof. unfold candidate. rewrite <- app_assoc. reflexivity. Qed.

(** Two counters never give the same name: the digits after the last tilde
    tell them apart. *)
Lemma candidate_inj filename extension c c' :
  candidate filename extension c = candidate filename extension c' -> c = c'.
Proof.
  intros H. rewrite !candidate_base in H. apply app_inv_tail in H.
  apply (f_equal (rsplit1 "~")) in H.
  rewrite !rsplit1_app in H by (apply str_not_elem; exact tilde_not_digit).
  injection H as _ H. apply str_inj. exact H.
Qed.

Lemma power_of_test c : 1 <= c -> (c <? 10 * power_of c) = true.
Proof.
  intros Hc. apply Z.ltb_lt. unfold power_of.
  destruct (Z.ltb_spec c 10); [lia |]. Z.div_mod_to_equations. lia.
Qed.

Lemma power_of_next c :
  1 <= c ->
  (if c + 1 =? 10 * power_of c then power_of c + 1 else power_of c)
  = power_of (c + 1).
Proof.
  intros Hc. unfold power_of.
  destruct (Z.ltb_spec c 10), (Z.ltb_spec (c + 1) 10);
    destruct (Z.eqb_spec (c + 1) (10 * 1));
    try destruct (Z.eqb_spec (c + 1) (10 * (c / 10 + 1)));
    try lia; Z.div_mod_to_equations; lia.
Qed.

(** What the loop does when entered with [counter] and the matching
    [power]: it returns the first free candidate from [counter] on, gives up
    only for lack of fuel, every candidate tried being taken, and never
    leaves through its test. *)
Lemma find_loop_spec fuel filename extension existing c :
  1 <= c ->
  match find_loop fuel filename extension existing c (power_of c) with
  | Returns r =>
      exists c', c <= c' < c + Z.of_nat fuel /\
                 r = candidate filename extension c' /\
                 (r ∉ existing) /\
                 forall c'', c <= c'' < c' ->
                             candidate filename extension c'' ∈ existing
  | Raise _ => False
  | OutOfFuel =>
      forall c'', c <= c'' < c + Z.of_nat fuel ->
                  candidate filename extension c'' ∈ existing
  end.
Proof.
  revert c. induction fuel as [| fuel IH]; intros c Hc.
  - simpl. intros c'' Hrange. lia.
  - cbn [find_loop]. rewrite (power_of_test c Hc).
    fold (candidate filename extension c).
    destruct (decide (candidate filename extension c ∈ existing)) as [Hin | Hnot].
    + rewrite bool_decide_eq_false_2 by (intros Hnot; exact (Hnot Hin)).
      cbv zeta. rewrite (power_of_next c Hc).
      specialize (IH (c + 1) ltac:(lia)).
      destruct (find_loop fuel filename extension existing (c + 1)
                  (power_of (c + 1))) as [r | e |].
      * destruct IH as (c' & Hrange & -> & Hfree & Hfirst).
        exists c'. split; [lia |]. split; [reflexivity |].
        split; [exact Hfree |]. intros c'' Hc''.
        destruct (decide (c'' = c)) as [-> | Hne]; [exact Hin |].
        apply Hfirst. lia.
      * exact IH.
      * intros c'' Hc''.
        destruct (decide (c'' = c)) as [-> | Hne]; [exact Hin |].
        apply IH. lia.
    + rewrite bool_decide_eq_true_2 by exact Hnot.
      exists c. split; [lia |]. split; [reflexivity |].
      split; [exact Hnot |]. intros c'' Hc''. lia.
Qed.

(** The loop cannot try more names than there are existing ones without
    finding a free one. *)
Lemma find_loop_enough_fuel fuel filename extension existing :
  (length existing < fuel)%nat ->
  find_loop fuel filename extension existing 1 (power_of 1) <> OutOfFuel.
Proof.
  intros Hfuel Hout.
  pose proof (find_loop_spec fuel filename extension existing 1 ltac:(lia)) as H.
  rewrite Hout in H.
  assert (Hsub : (candidate filename extension <$> seqZ 1 (Z.of_nat fuel))
                 ⊆+ existing).
  { apply NoDup_submseteq.
    - apply (NoDup_fmap_2_strong _); [| apply NoDup_seqZ].
      intros c c' _ _. apply candidate_inj.
    - intros r Hr. apply list_elem_of_fmap in Hr as (c & -> & Hc).
      apply elem_of_seqZ in Hc. apply H. lia. }
  apply submseteq_length in Hsub.
  rewrite length_fmap, length_seqZ in Hsub. lia.
Qed.

Lemma sub_spaces_clean in_run s :
  Forall (fun c => c ∉ deleted_chars) s ->
  Forall clean_char (sub_spaces ["_"%char] in_run s).
Proof.
  revert in_run. induction s as [| c s IH]; intros in_run Hs; simpl.
  - constructor.
  - apply Forall_cons in Hs as [Hc Hs].
    destruct (is_space c) eqn:Hspace.
    + apply Forall_app. split; [| apply IH; exact Hs].
      destruct in_run; [constructor |].
      constructor; [| constructor]. split; [| reflexivity].
      apply (bool_decide_unpack _). vm_compute. reflexivity.
    + constructor; [split; assumption | apply IH; exact Hs].
Qed.

Lemma digit_clean c : digit_or_minus c -> clean_char c.
Proof.
  unfold digit_or_minus. intros Hc.
  repeat (apply elem_of_cons in Hc as [-> | Hc];
          [split; [apply (bool_decide_unpack _); vm_compute; reflexivity
                  | reflexivity] |]).
  apply elem_of_nil in Hc. contradiction.
Qed.

Lemma str_length_small c :
  0 <= c < 100 -> length (str c) = if c <? 10 then 1%nat else 2%nat.
Proof.
  intros Hc.
  assert (H : forallb
                (fun n => Nat.eqb (length (str (Z.of_nat n)))
                            (if Z.of_nat n <? 10 then 1 else 2))
                (seq 0 100) = true) by (vm_compute; reflexivity).
  rewrite List.forallb_forall in H.
  specialize (H (Z.to_nat c)). rewrite Z2Nat.id in H by lia.
  apply Nat.eqb_eq, H, List.in_seq. lia.
Qed.

Section FindCollisionfreeNameProperties.
Variable lower : pystr -> pystr.

Lemma sanitized_clean input : Forall clean_char (sanitized lower input).
Proof.
  apply sub_spaces_clean. apply Forall_forall. intros c Hc.
  apply list_elem_of_filter in Hc as [Hc _]. exact Hc.
Qed.

(** The part of a candidate before its extension is made of clean
    characters only: no dot, no white space, none of the deleted ones. *)
Lemma candidate_base_clean input c :
  Forall clean_char
    (slice_to (6 - power_of c + 1) (sanitized lower input)
       ++ "~"%char :: str c).
Proof.
  apply Forall_app. split.
  - assert (Hsub : slice_to (6 - power_of c + 1) (sanitized lower input)
                   ⊆ sanitized lower input)
      by (unfold slice_to; destruct (0 <=? _); apply subseteq_take).
    pose proof (sanitized_clean input) as Hclean.
    rewrite Forall_forall in Hclean. apply Forall_forall.
    intros x Hx. apply Hclean, Hsub, Hx.
  - constructor.
    + split; [apply (bool_decide_unpack _); vm_compute; reflexivity
             | reflexivity].
    + eapply Forall_impl; [apply str_digits | exact digit_clean].
Qed.

(** X7: the [raise ValueError] after the loop is never reached, whatever
    the names in use: each time [counter] reaches [10 * power], [power]
    grows, so the loop test never fails. *)
Theorem findCollisionfreeName_never_raises (fuel : nat)
    (input extension : pystr) (existingFilenames : list pystr) (e : exn) :
  findCollisionfreeName lower fuel input extension existingFilenames
  <> Raise e.
Proof.
  unfold findCollisionfreeName. intros Hraise.
  pose proof (find_loop_spec fuel (sanitized lower input) extension
                existingFilenames 1 ltac:(lia)) as H.
  change (power_of 1) with 1 in H. rewrite Hraise in H. exact H.
Qed.

(** With more iterations allowed than there are existing names, the search
    returns the candidate of the first counter whose candidate is not in
    use, and this counter is at most the number of existing names plus
    one. *)
Lemma first_free_candidate (fuel : nat)
    (input extension : pystr) (existingFilenames : list pystr) :
  (length existingFilenames < fuel)%nat ->
  exists c,
    1 <= c <= Z.of_nat (length existingFilenames) + 1 /\
    findCollisionfreeName lower fuel input extension existingFilenames
    = Returns (candidate (sanitized lower input) extension c) /\
    (candidate (sanitized lower input) extension c ∉ existingFilenames) /\
    forall c', 1 <= c' < c ->
               candidate (sanitized lower input) extension c'
               ∈ existingFilenames.
Proof.
  intros Hfuel. unfold findCollisionfreeName.
  pose proof (find_loop_spec fuel (sanitized lower input) extension
                existingFilenames 1 ltac:(lia)) as H.
  pose proof (find_loop_enough_fuel fuel (sanitized lower input) extension
                existingFilenames Hfuel) as Hout.
  change (power_of 1) with 1 in H, Hout.
  destruct (find_loop fuel (sanitized lower input) extension
              existingFilenames 1 1) as [r | e |];
    [| contradiction | congruence].
  destruct H as (c & Hrange & -> & Hfree & Hfirst).
  exists c. split; [| split; [reflexivity | split; assumption]].
  split; [lia |].
  assert (Hsub : (candidate (sanitized lower input) extension
                    <$> seqZ 1 (c - 1)) ⊆+ existingFilenames).
  { apply NoDup_submseteq.
    - apply (NoDup_fmap_2_strong _); [| apply NoDup_seqZ].
      intros x y _ _. apply candidate_inj.
    - intros r Hr. apply list_elem_of_fmap in Hr as (x & -> & Hx).
      apply elem_of_seqZ in Hx. apply Hfirst. lia. }
  apply submseteq_length in Hsub.
  rewrite length_fmap, length_seqZ in Hsub. lia.
Qed.


(** X9: as long as at most 68 names are in use, the name returned is
    [base.extension] with a base of 1 to 8 clean characters (no dot, no
    white space, none of the deleted characters). *)
Theorem findCollisionfreeName_short_base (fuel : nat)
    (input extension : pystr) (existingFilenames : list pystr) :
  (length existingFilenames < fuel)%nat ->
  (length existingFilenames <= 68)%nat ->
  exists base,
    findCollisionfreeName lower fuel input extension existingFilenames
    = Returns (base ++ "."%char :: extension) /\
    (1 <= length base <= 8)%nat /\
    Forall clean_char base.
Proof.
  intros Hfuel Hfew.
  destruct (first_free_candidate fuel input extension
              existingFilenames Hfuel) as (c & Hc & -> & _).
  rewrite candidate_base. eexists. split; [reflexivity |].
  split; [| apply candidate_base_clean].
  rewrite length_app. cbn [length].
  rewrite (str_length_small c) by lia.
  assert (Hslice : (length (slice_to (6 - power_of c + 1)
                              (sanitized lower input))
                    <= Z.to_nat (6 - power_of c + 1))%nat).
  { unfold slice_to.
    assert (Hpow : 0 <= 6 - power_of c + 1).
    { unfold power_of. destruct (c <? 10); [lia |].
      Z.div_mod_to_equations. lia. }
    destruct (Z.leb_spec 0 (6 - power_of c + 1)); [| lia].
    rewrite length_take. lia. }
  revert Hslice. unfold power_of.
  destruct (Z.ltb_spec c 10); intros Hslice; [lia |].
  assert (Z.to_nat (6 - (c / 10 + 1) + 1) <= 5)%nat
    by (Z.div_mod_to_equations; lia).
  lia.
Qed.

(** X10: once the first 69 names are all in use, the prefix kept of the
    cleaned name is no longer a fixed number of characters: for the counter
    [c >= 70] the slice bound is negative and only the last [c / 10 - 6]
    characters are dropped, so a long name gives a long result. *)
Theorem findCollisionfreeName_after_69 (fuel : nat)
    (input extension : pystr) (existingFilenames : list pystr) :
  (length existingFilenames < fuel)%nat ->
  (forall c, 1 <= c < 70 ->
             candidate (sanitized lower input) extension c
             ∈ existingFilenames) ->
  exists c,
    70 <= c /\
    findCollisionfreeName lower fuel input extension existingFilenames
    = Returns (take (length (sanitized lower input) - Z.to_nat (c / 10 - 6))
                 (sanitized lower input)
                 ++ "~"%char :: str c ++ "."%char :: extension).
Proof.
  intros Hfuel Htaken.
  destruct (first_free_candidate fuel input extension
              existingFilenames Hfuel) as (c & Hc & -> & Hfree & _).
  assert (Hge : 70 <= c).
  { destruct (Z.le_gt_cases 70 c) as [Hle | Hlt]; [exact Hle |].
    exfalso. apply Hfree, Htaken. lia. }
  exists c. split; [exact Hge |]. unfold candidate, slice_to.
  assert (Hpow : 6 - power_of c + 1 = - (c / 10 - 6)).
  { unfold power_of. destruct (Z.ltb_spec c 10); lia. }
  rewrite Hpow.
  destruct (Z.leb_spec 0 (- (c / 10 - 6)));
    [exfalso; Z.div_mod_to_equations; lia |].
  rewrite Z.opp_involutive. reflexivity.
Qed.
(** X11: the name found passes [isAllowedFile] exactly when its extension
    is an allowed one, provided the extension itself has no dot: nothing in
    the base can be taken for the start of the extension. *)
Theorem findCollisionfreeName_allowed (fuel : nat)
    (input extension : pystr) (existingFilenames extensions : list pystr) :
  (length existingFilenames < fuel)%nat ->
  "."%char ∉ extension ->
  exists r,
    findCollisionfreeName lower fuel input extension existingFilenames
    = Returns r /\
    isAllowedFile r extensions = bool_decide (extension ∈ extensions).
Proof.
  intros Hfuel Hdot.
  destruct (first_free_candidate fuel input extension
              existingFilenames Hfuel) as (c & _ & -> & _).
  eexists. split; [reflexivity |].
  rewrite candidate_base. unfold isAllowedFile.
  rewrite (rsplit1_app _ _ _ Hdot).
  rewrite bool_decide_eq_true_2; [reflexivity |].
  apply elem_of_app. right. left.
Qed.

(** X12: [getDosFilename] on a name without any dot raises [ValueError]
    (the split gives one part where two are unpacked), whether or not an
    extension is passed. *)
Theorem getDosFilename_no_dot (fuel : nat) (input : pystr)
    (existingFilenames : list pystr) (extension : option pystr) :
  "."%char ∉ input ->
  getDosFilename lower fuel (Some input) existingFilenames extension
  = Raise ValueError.
Proof.
  intros Hdot. unfold getDosFilename.
  apply rsplit1_None in Hdot. rewrite Hdot. reflexivity.
Qed.

(** X13: on [name.ext], with more iterations allowed than there are
    existing names, [getDosFilename] returns a name that is not in use and
    ends in a dot and the extension asked for, [gco] by default; the
    extension of the input plays no part in the result. *)
Theorem getDosFilename_fresh (fuel : nat) (name ext : pystr)
    (existingFilenames : list pystr) (extension : option pystr) :
  (length existingFilenames < fuel)%nat ->
  "."%char ∉ ext ->
  exists base,
    getDosFilename lower fuel (Some (name ++ "."%char :: ext))
      existingFilenames extension
    = Returns
        (Some (base ++ "."%char :: default ["g"; "c"; "o"]%char extension)) /\
    (base ++ "."%char :: default ["g"; "c"; "o"]%char extension
     ∉ existingFilenames) /\
    forall ext', "."%char ∉ ext' ->
      getDosFilename lower fuel (Some (name ++ "."%char :: ext'))
        existingFilenames extension
      = getDosFilename lower fuel (Some (name ++ "."%char :: ext))
          existingFilenames extension.
Proof.
  intros Hfuel Hdot. unfold getDosFilename.
  rewrite (rsplit1_app _ _ _ Hdot).
  destruct (first_free_candidate fuel name
              (default ["g"; "c"; "o"]%char extension) existingFilenames
              Hfuel) as (c & _ & Hfound & Hfree & _).
  rewrite Hfound. rewrite candidate_base in Hfree |- *.
  eexists. split; [reflexivity |]. split; [exact Hfree |].
  intros ext' Hdot'. rewrite (rsplit1_app _ _ _ Hdot'), Hfound.
  rewrite candidate_base. reflexivity.
Qed.
End FindCollisionfreeNameProperties.


Lemma findCollisionfreeName_short_base_witness :
  exists base,
    findCollisionfreeName (fun s => s) 1
      ["m"; "y"; " "; "f"; "i"; "l"; "e"; "s"]%char ["g"; "c"; "o"]%char []
    = Returns (base ++ "."%char :: ["g"; "c"; "o"]%char) /\
    (1 <= length base <= 8)%nat /\
    Forall clean_char base.
Proof.
  apply (findCollisionfreeName_short_base (fun s => s) 1); simpl; lia.
Defined.

Lemma findCollisionfreeName_after_69_witness :
  exists c,
    70 <= c /\
    findCollisionfreeName (fun s => s) 70
      ["a"; "b"; "c"; "d"; "e"; "f"; "g"; "h"; "i"; "j"]%char
      ["g"; "c"; "o"]%char
      (candidate ["a"; "b"; "c"; "d"; "e"; "f"; "g"; "h"; "i"; "j"]%char
         ["g"; "c"; "o"]%char <$> seqZ 1 69)
    = Returns
        (take (10 - Z.to_nat (c / 10 - 6))
           ["a"; "b"; "c"; "d"; "e"; "f"; "g"; "h"; "i"; "j"]%char
           ++ "~"%char :: str c ++ "."%char :: ["g"; "c"; "o"]%char).
Proof.
  apply (findCollisionfreeName_after_69 (fun s => s) 70
           ["a"; "b"; "c"; "d"; "e"; "f"; "g"; "h"; "i"; "j"]%char).
  - rewrite length_fmap, length_seqZ. lia.
  - intros c Hc. apply list_elem_of_fmap. exists c.
    split; [reflexivity | apply elem_of_seqZ; lia].
Defined.

Lemma findCollisionfreeName_allowed_witness :
  exists r,
    findCollisionfreeName (fun s => s) 1 ["a"]%char ["g"; "c"; "o"]%char []
    = Returns r /\
    isAllowedFile r [["g"; "c"; "o"]%char]
    = bool_decide (["g"; "c"; "o"]%char ∈ [["g"; "c"; "o"]%char]).
Proof.
  apply (findCollisionfreeName_allowed (fun s => s) 1); [simpl; lia |].
  apply (bool_decide_unpack _). vm_compute. reflexivity.
Defined.

Lemma getDosFilename_no_dot_witness :
  getDosFilename (fun s => s) 1 (Some ["R"; "E"; "A"; "D"; "M"; "E"]%char) []
    (Some ["g"]%char)
  = Raise ValueError.
Proof.
  apply getDosFilename_no_dot.
  apply (bool_decide_unpack _). vm_compute. reflexivity.
Defined.

Lemma getDosFilename_fresh_witness :
  exists base,
    getDosFilename (fun s => s) 1
      (Some (["B"; "i"; "g"] ++ "." :: ["s"; "t"; "l"])%char) [] None
    = Returns (Some (base ++ "." :: ["g"; "c"; "o"])%char).
Proof.
  destruct (getDosFilename_fresh (fun s => s) 1 ["B"; "i"; "g"]%char
              ["s"; "t"; "l"]%char [] None) as (base & Hres & _).
  - simpl. lia.
  - apply (bool_decide_unpack _). vm_compute. reflexivity.
  - exists base. exact Hres.
Defined.

(** * Durations *)

Lemma string_of_uint_digit d :
  Forall digit (String.list_ascii_of_string (NilEmpty.string_of_uint d)).
Proof.
  induction d; simpl; constructor; try assumption;
    unfold digit; apply (bool_decide_unpack _); vm_compute; reflexivity.
Qed.

(** The digits of a non-negative number, as [Z.to_int] gives them. *)
Lemma str_nonneg n :
  0 <= n ->
  exists u, u <> Decimal.Nil /\ Z.to_int n = Decimal.Pos u /\
            str n = String.list_ascii_of_string (NilEmpty.string_of_uint u).
Proof.
  intros Hn. unfold str.
  destruct (Z.to_int n) as [u | u] eqn:Hu.
  - assert (Hnil : u <> Decimal.Nil).
    { intros ->. destruct (to_int_nonnil n) as [Hp _]. exact (Hp Hu). }
    exists u. split; [exact Hnil |]. split; [reflexivity |].
    destruct u; [contradiction | reflexivity ..].
  - exfalso. destruct n as [| p | p]; simpl in Hu; try discriminate Hu. lia.
Qed.

Lemma str_nonneg_digits n : 0 <= n -> Forall digit (str n).
Proof.
  intros Hn. destruct (str_nonneg n Hn) as (u & _ & _ & ->).
  apply string_of_uint_digit.
Qed.

Lemma digits_value_zero s : digits_value ("0"%char :: s) = digits_value s.
Proof.
  unfold digits_value. simpl.
  destruct (NilEmpty.uint_of_string (String.string_of_list_ascii s));
    reflexivity.
Qed.

Lemma digits_value_pad w s : digits_value (pad_zero w s) = digits_value s.
Proof.
  unfold pad_zero. induction (w - length s)%nat as [| k IH]; [reflexivity |].
  simpl. rewrite digits_value_zero. exact IH.
Qed.

Lemma digits_value_str n : 0 <= n -> digits_value (str n) = Some n.
Proof.
  intros Hn. destruct (str_nonneg n Hn) as (u & _ & Hu & ->).
  unfold digits_value.
  rewrite String.string_of_list_ascii_of_string, NilEmpty.usu. simpl.
  f_equal. rewrite <- (DecimalZ.of_to n), Hu. reflexivity.
Qed.

Lemma pad_zero_digits w s : Forall digit s -> Forall digit (pad_zero w s).
Proof.
  intros Hs. unfold pad_zero. apply Forall_app. split; [| exact Hs].
  apply Forall_replicate.
  unfold digit; apply (bool_decide_unpack _); vm_compute; reflexivity.
Qed.

(** Reading back what ["%02d"] wrote gives the number. *)
Lemma int_value_format_02d n : int_value (format_02d n) = Some n.
Proof.
  unfold format_02d. destruct (Z.ltb_spec n 0) as [Hneg | Hpos].
  - simpl. rewrite digits_value_pad, digits_value_str by lia.
    simpl. f_equal. lia.
  - assert (Hdigits : Forall digit (pad_zero 2 (str n)))
      by (apply pad_zero_digits, str_nonneg_digits; exact Hpos).
    unfold int_value.
    destruct (pad_zero 2 (str n)) as [| c s] eqn:Hpad.
    + rewrite <- Hpad, digits_value_pad. apply digits_value_str. exact Hpos.
    + destruct (decide (c = "-"%char)) as [-> | _].
      * exfalso. apply Forall_cons in Hdigits as [Hc _]. revert Hc.
        unfold digit. apply (bool_decide_unpack _). vm_compute. reflexivity.
      * rewrite <- Hpad, digits_value_pad. apply digits_value_str. exact Hpos.
Qed.

Lemma format_02d_no_colon n : ":"%char ∉ format_02d n.
Proof.
  assert (Hd : forall s, Forall digit s -> ":"%char ∉ s).
  { intros s Hs Hin. rewrite Forall_forall in Hs. specialize (Hs _ Hin).
    revert Hs. unfold digit. apply (bool_decide_unpack _).
    vm_compute. reflexivity. }
  unfold format_02d. destruct (Z.ltb_spec n 0).
  - apply not_elem_of_cons. split; [discriminate |].
    apply Hd, pad_zero_digits, str_nonneg_digits. lia.
  - apply Hd, pad_zero_digits, str_nonneg_digits. assumption.
Qed.

(** X14: the three fields printed add up to the whole duration in seconds,
    days included and microseconds dropped, with minutes and seconds in
    0..59; so hours are not limited to 0..23, and for a negative duration
    the sign is on the hours alone while minutes and seconds count up from
    the hour below. *)
Theorem getFormattedTimeDelta_fields (d : timedelta) :
  exists hours minutes secs,
    getFormattedTimeDelta (Some d)
    = Some (format_02d hours ++ ":"%char :: format_02d minutes
              ++ ":"%char :: format_02d secs) /\
    hours * 3600 + minutes * 60 + secs = days d * 86400 + seconds d /\
    0 <= minutes < 60 /\ 0 <= secs < 60.
Proof.
  exists (days d * 24 + seconds d / 3600), ((seconds d mod 3600) / 60),
    (seconds d mod 60).
  split; [reflexivity |]. Z.div_mod_to_equations. lia.
Qed.

(** X15: two durations are printed alike only if they are the same number of
    whole seconds: the text determines the duration, negative ones
    included. *)
Theorem getFormattedTimeDelta_inj (d1 d2 : timedelta) :
  getFormattedTimeDelta (Some d1) = getFormattedTimeDelta (Some d2) ->
  days d1 * 86400 + seconds d1 = days d2 * 86400 + seconds d2.
Proof.
  unfold getFormattedTimeDelta. intros [= Heq].
  assert (Hcut : forall h m s,
            format_02d h ++ ":"%char :: format_02d m ++ ":"%char :: format_02d s
            = (format_02d h ++ ":"%char :: format_02d m)
                ++ ":"%char :: format_02d s)
    by (intros; rewrite <- app_assoc; reflexivity).
  rewrite !Hcut in Heq.
  apply (f_equal (rsplit1 ":")) in Heq.
  rewrite !rsplit1_app in Heq by apply format_02d_no_colon.
  injection Heq as Hhm Hs.
  apply (f_equal (rsplit1 ":")) in Hhm.
  rewrite !rsplit1_app in Hhm by apply format_02d_no_colon.
  injection Hhm as Hh Hm.
  apply (f_equal int_value) in Hh, Hm, Hs.
  rewrite !int_value_format_02d in Hh, Hm, Hs.
  injection Hh as Hh. injection Hm as Hm. injection Hs as Hs.
  Z.div_mod_to_equations. lia.
Qed.

Lemma getFormattedTimeDelta_inj_witness :
  days (mkTimedelta 0 3725 5) * 86400 + seconds (mkTimedelta 0 3725 5)
  = days (mkTimedelta 0 3725 9) * 86400 + seconds (mkTimedelta 0 3725 9).
Proof.
  apply getFormattedTimeDelta_inj. reflexivity.
Defined.

(** X16: for a duration that is not negative, the text is [hh:mm:ss] made of
    digits, with exactly two of them for the minutes and for the seconds
    and at least two for the hours. *)
Theorem getFormattedTimeDelta_shape (d : timedelta) :
  0 <= days d -> timedelta_normalized d ->
  exists hh mm ss,
    getFormattedTimeDelta (Some d) = Some (hh ++ ":"%char :: mm ++ ":"%char :: ss) /\
    (2 <= length hh)%nat /\ length mm = 2%nat /\ length ss = 2%nat /\
    Forall digit (hh ++ mm ++ ss).
Proof.
  intros Hdays [Hsec _].
  assert (Hfix : forall n, 0 <= n < 60 ->
                           length (format_02d n) = 2%nat /\
                           Forall digit (format_02d n)).
  { intros n Hn. unfold format_02d.
    destruct (Z.ltb_spec n 0); [lia |]. split.
    - unfold pad_zero. rewrite length_app, length_replicate.
      rewrite (str_length_small n) by lia. destruct (n <? 10); reflexivity.
    - apply pad_zero_digits, str_nonneg_digits. lia. }
  assert (Hhours : 0 <= days d * 24 + seconds d / 3600)
    by (Z.div_mod_to_equations; lia).
  destruct (Hfix ((seconds d mod 3600) / 60)) as [Hm1 Hm2];
    [Z.div_mod_to_equations; lia |].
  destruct (Hfix (seconds d mod 60)) as [Hs1 Hs2];
    [Z.div_mod_to_equations; lia |].
  eexists _, _, _. split; [reflexivity |].
  split; [| split; [exact Hm1 | split; [exact Hs1 |]]].
  - unfold format_02d.
    destruct (Z.ltb_spec (days d * 24 + seconds d / 3600) 0); [lia |].
    unfold pad_zero. rewrite length_app, length_replicate. lia.
  - repeat (apply Forall_app; split); try assumption.
    unfold format_02d.
    destruct (Z.ltb_spec (days d * 24 + seconds d / 3600) 0); [lia |].
    apply pad_zero_digits, str_nonneg_digits. assumption.
Qed.

Lemma getFormattedTimeDelta_shape_witness :
  exists hh mm ss,
    getFormattedTimeDelta (Some (mkTimedelta 2 3725 0))
    = Some (hh ++ ":"%char :: mm ++ ":"%char :: ss) /\
    (2 <= length hh)%nat /\ length mm = 2%nat /\ length ss = 2%nat /\
    Forall digit (hh ++ mm ++ ss).
Proof.
  apply getFormattedTimeDelta_shape; [simpl; lia |].
  unfold timedelta_normalized. simpl. lia.
Defined.

(** * Nested dictionaries *)

Section DictsProperties.
Context {K : Type} `{Countable K} {A : Type}.
Implicit Types a d db : gmap K (value K A).
Implicit Types v b : value K A.

Lemma value_size_lookup d k v :
  d !! k = Some v -> (value_size v < value_size (Dict d))%nat.
Proof.
  intros Hk. simpl.
  rewrite (map_fold_delete_L _ _ k v d); [lia | | exact Hk].
  intros. lia.
Qed.

(** Induction on values: a property that holds of every non-dict and of
    every dict whose values have it holds of all values. *)
Lemma value_ind' (P : value K A -> Prop) :
  (forall x, P (Atom x)) ->
  (forall d, map_Forall (fun _ v => P v) d -> P (Dict d)) ->
  forall v, P v.
Proof.
  intros Hatom Hdict v.
  remember (value_size v) as n eqn:Hn. revert v Hn.
  induction n as [n IH] using lt_wf_ind. intros [x | d] Hn.
  - apply Hatom.
  - apply Hdict. intros k v Hk.
    apply (IH (value_size v)); [| reflexivity].
    rewrite Hn. exact (value_size_lookup d k v Hk).
Qed.

(** The loop of [dict_merge], key by key: the order in which the items of
    [b] are met plays no part. *)
Lemma merge_lookup a db :
  exists m,
    dict_merge a (Dict db) = Dict m /\
    forall k,
      m !! k = match db !! k with
               | None => a !! k
               | Some v =>
                   match a !! k with
                   | Some (Dict r) => Some (dict_merge r v)
                   | _ => Some v
                   end
               end.
Proof.
  simpl. eexists. split; [reflexivity |].
  apply (map_fold_weak_ind
           (fun result m' =>
              forall k,
                result !! k = match m' !! k with
                              | None => a !! k
                              | Some v =>
                                  match a !! k with
                                  | Some (Dict r) => Some (dict_merge r v)
                                  | _ => Some v
                                  end
                              end)).
  - intros k. rewrite lookup_empty. reflexivity.
  - intros i x m' r Hfresh IH k.
    pose proof (IH i) as Hi. rewrite Hfresh in Hi.
    destruct (decide (i = k)) as [-> | Hne].
    + rewrite lookup_insert_eq, Hi.
      destruct (a !! k) as [[y | r0] |]; rewrite lookup_insert_eq; reflexivity.
    + rewrite (lookup_insert_ne m') by exact Hne. rewrite <- IH.
      destruct (r !! i) as [[y | r0] |]; rewrite lookup_insert_ne by exact Hne;
        reflexivity.
Qed.

(** X17: the keys of a merge are the keys of either dict. *)
Theorem dict_merge_dom a db :
  exists m, dict_merge a (Dict db) = Dict m /\ dom m = dom a ∪ dom db.
Proof.
  destruct (merge_lookup a db) as (m & Hm & Hlook).
  exists m. split; [exact Hm |]. apply set_eq. intros k.
  rewrite elem_of_union, !elem_of_dom, Hlook.
  destruct (db !! k) as [v |].
  - split; [intros _; right; eauto |]. intros _.
    destruct (a !! k) as [[y | r] |]; eauto.
  - split; [intros Ha; left; exact Ha |].
    intros [Ha | [v Hv]]; [exact Ha | discriminate Hv].
Qed.

(** X18: merging is neutral on both sides for the empty dict: nothing merged
    into [a] is [a], and [b] merged into nothing is [b]. *)
Theorem dict_merge_empty a b :
  dict_merge a (Dict ∅) = Dict a /\ dict_merge ∅ b = b.
Proof.
  split; [reflexivity |].
  destruct b as [x | db]; [reflexivity |].
  destruct (merge_lookup ∅ db) as (m & -> & Hlook).
  f_equal. apply map_eq. intros k. rewrite Hlook, lookup_empty.
  destruct (db !! k); reflexivity.
Qed.

(** X19: merging a dict into itself changes nothing, at any depth. *)
Theorem dict_merge_idemp a : dict_merge a (Dict a) = Dict a.
Proof.
  assert (Hall : forall v, match v with
                           | Dict d => dict_merge d (Dict d) = Dict d
                           | Atom _ => True
                           end).
  { induction v as [x | d IH] using value_ind'; [exact I |].
    destruct (merge_lookup d d) as (m & -> & Hlook).
    f_equal. apply map_eq. intros k. rewrite Hlook.
    destruct (d !! k) as [[y | r] |] eqn:Hk; try reflexivity.
    f_equal. exact (IH k (Dict r) Hk). }
  exact (Hall (Dict a)).
Qed.

Lemma dict_clean_value_Dict d b :
  dict_clean_value (Dict d) b = Dict (dict_clean d b).
Proof. destruct b; reflexivity. Qed.

Lemma clean_items_lookup (rec : value K A -> value K A -> value K A) a db k :
  clean_items rec a db !! k
  = match a !! k, db !! k with
    | Some (Dict dv), Some bk => Some (rec (Dict dv) bk)
    | Some (Atom x), Some _ => Some (Atom x)
    | _, _ => None
    end.
Proof.
  unfold clean_items.
  assert (Hgen : forall init m : gmap K (value K A),
            map_fold
              (fun k v result =>
                 match db !! k with
                 | None => delete k result
                 | Some bk =>
                     match v with
                     | Dict _ => <[k := rec v bk]> result
                     | Atom _ => <[k := v]> result
                     end
                 end) init m !! k
            = match m !! k with
              | Some v =>
                  match v, db !! k with
                  | Dict dv, Some bk => Some (rec (Dict dv) bk)
                  | Atom x, Some _ => Some (Atom x)
                  | _, None => None
                  end
              | None => init !! k
              end).
  { intros init.
    apply (map_fold_weak_ind
             (fun result m =>
                result !! k
                = match m !! k with
                  | Some v =>
                      match v, db !! k with
                      | Dict dv, Some bk => Some (rec (Dict dv) bk)
                      | Atom x, Some _ => Some (Atom x)
                      | _, None => None
                      end
                  | None => init !! k
                  end)).
    - rewrite lookup_empty. reflexivity.
    - intros i x m r Hfresh IH.
      destruct (decide (i = k)) as [-> | Hne].
      + rewrite lookup_insert_eq.
        destruct (db !! k) as [bk |]; [| destruct x; apply lookup_delete_eq].
        destruct x; apply lookup_insert_eq.
      + rewrite (lookup_insert_ne m) by exact Hne. rewrite <- IH.
        destruct (db !! i) as [bk |]; [| apply lookup_delete_ne; exact Hne].
        destruct x; apply lookup_insert_ne; exact Hne. }
  rewrite Hgen. destruct (a !! k) as [[x | dv] |]; reflexivity.
Qed.

(** The loop of [dict_clean], key by key. *)
Lemma clean_lookup a db k :
  dict_clean a (Dict db) !! k
  = match a !! k, db !! k with
    | Some (Dict dv), Some bk => Some (Dict (dict_clean dv bk))
    | Some (Atom x), Some _ => Some (Atom x)
    | _, _ => None
    end.
Proof.
  simpl. rewrite clean_items_lookup.
  destruct (a !! k) as [[x | dv] |]; try reflexivity.
  destruct (db !! k) as [bk |]; [| reflexivity].
  rewrite dict_clean_value_Dict. reflexivity.
Qed.

(** Cleaning a dict against itself changes nothing. *)
Lemma clean_self a : dict_clean a (Dict a) = a.
Proof.
  assert (Hall : forall v, match v with
                           | Dict d => dict_clean d (Dict d) = d
                           | Atom _ => True
                           end).
  { induction v as [x | d IH] using value_ind'; [exact I |].
    apply map_eq. intros k. rewrite clean_lookup.
    destruct (d !! k) as [[x | dv] |] eqn:Hk; try reflexivity.
    pose proof (IH k (Dict dv) Hk) as IHk. simpl in IHk.
    simpl. rewrite IHk. reflexivity. }
  exact (Hall (Dict a)).
Qed.

(** X20: the merge, key by key and whatever the order in which the loop
    meets the items of [b]: a key that [b] does not have keeps what [a] has
    for it; a key of [b] whose value in [a] is missing or not a dict gets
    [b]'s value, dict or not; a key of [b] whose value in [a] is a dict gets
    the merge of that dict with [b]'s value. *)
Theorem dict_merge_lookup a db :
  exists m,
    dict_merge a (Dict db) = Dict m /\
    forall k,
      (db !! k = None -> m !! k = a !! k) /\
      (forall v, db !! k = Some v -> (forall r, a !! k <> Some (Dict r)) ->
                 m !! k = Some v) /\
      (forall v r, db !! k = Some v -> a !! k = Some (Dict r) ->
                   m !! k = Some (dict_merge r v)).
Proof.
  destruct (merge_lookup a db) as (m & Hm & Hlook).
  exists m. split; [exact Hm |]. intros k. rewrite Hlook.
  split; [| split].
  - intros ->. reflexivity.
  - intros v -> Hnodict.
    destruct (a !! k) as [[x | r] |]; try reflexivity.
    exfalso. exact (Hnodict r eq_refl).
  - intros v r -> ->. reflexivity.
Qed.

(** X21: what [dict_clean] keeps of [a], key by key and in whatever order
    the loop runs: a key that [a] or [b] does not have is not in the result;
    under a key of both, a dict of [a] is cleaned against [b]'s value and
    anything else of [a] is kept as it is. *)
Theorem dict_clean_lookup a db k :
  (a !! k = None \/ db !! k = None -> dict_clean a (Dict db) !! k = None) /\
  (forall x bk, a !! k = Some (Atom x) -> db !! k = Some bk ->
                dict_clean a (Dict db) !! k = Some (Atom x)) /\
  (forall dv bk, a !! k = Some (Dict dv) -> db !! k = Some bk ->
                 dict_clean a (Dict db) !! k = Some (Dict (dict_clean dv bk))).
Proof.
  rewrite clean_lookup. split; [| split].
  - intros [-> | ->]; [reflexivity |].
    destruct (a !! k) as [[x | dv] |]; reflexivity.
  - intros x bk -> ->. reflexivity.
  - intros dv bk -> ->. reflexivity.
Qed.

(** X22: the keys left by [dict_clean] are the keys common to both dicts. *)
Theorem dict_clean_dom a db :
  dom (dict_clean a (Dict db)) = dom a ∩ dom db.
Proof.
  apply set_eq. intros k.
  rewrite elem_of_intersection, !elem_of_dom, clean_lookup.
  destruct (a !! k) as [[x | dv] |], (db !! k) as [bk |];
    split; try (intros [[? [=]] [? [=]]]); try (intros [? [=]]); eauto.
Qed.

(** X23: cleaning [a] against what merging anything into [a] gives returns
    [a] unchanged: the merge has all of [a]'s keys, at every depth. *)
Theorem dict_clean_merge a b : dict_clean a (dict_merge a b) = a.
Proof.
  assert (Hall : forall v, match v with
                           | Dict d => forall b, dict_clean d (dict_merge d b) = d
                           | Atom _ => True
                           end).
  { induction v as [x | d IH] using value_ind'; [exact I |].
    intros [y | db]; [reflexivity |].
    destruct (merge_lookup d db) as (m & -> & Hlook).
    apply map_eq. intros k. rewrite clean_lookup, Hlook.
    destruct (d !! k) as [[x | dv] |] eqn:Hk; [| | reflexivity].
    - destruct (db !! k); reflexivity.
    - pose proof (IH k (Dict dv) Hk) as IHk. simpl in IHk.
      destruct (db !! k) as [vb |].
      + rewrite IHk. reflexivity.
      + specialize (IHk (Dict ∅)). simpl in IHk.
        rewrite map_fold_empty in IHk. simpl. rewrite IHk. reflexivity. }
  exact (Hall (Dict a) b).
Qed.

(** X24: merging [b] into any dict and cleaning the result against [b]
    gives [b] back: whatever the merge took from [a] alone is removed,
    at every depth. *)
Theorem dict_merge_clean a db :
  exists m, dict_merge a (Dict db) = Dict m /\ dict_clean m (Dict db) = db.
Proof.
  assert (Hall : forall b, match b with
                           | Dict db =>
                               forall a, exists m,
                                 dict_merge a (Dict db) = Dict m /\
                                 dict_clean m (Dict db) = db
                           | Atom _ => True
                           end).
  { induction b as [x | d IH] using value_ind'; [exact I |].
    intros a0. destruct (merge_lookup a0 d) as (m & Hm & Hlook).
    exists m. split; [exact Hm |].
    apply map_eq. intros k. rewrite clean_lookup, Hlook.
    destruct (d !! k) as [vb |] eqn:Hk.
    - pose proof (IH k vb Hk) as IHk.
      destruct (a0 !! k) as [[y | r] |].
      + destruct vb as [z | dvb]; [reflexivity |].
        rewrite clean_self. reflexivity.
      + destruct vb as [z | dvb]; [reflexivity |].
        destruct (IHk r) as (m' & -> & ->). reflexivity.
      + destruct vb as [z | dvb]; [reflexivity |].
        rewrite clean_self. reflexivity.
    - destruct (a0 !! k) as [[y | r] |]; reflexivity. }
  exact (Hall (Dict db) a).
Qed.
End DictsProperties.

(** * Requests *)

Lemma split_first_spec sep s :
  exists rest,
    s = split_first sep s ++ rest /\
    (sep ∉ split_first sep s) /\
    (rest = [] \/ exists rest', rest = sep :: rest').
Proof.
  induction s as [| c s (rest & Hs & Hnot & Hrest)]; simpl.
  - exists []. split; [reflexivity |]. split; [apply not_elem_of_nil | left; reflexivity].
  - destruct (decide (c = sep)) as [-> | Hne].
    + exists (sep :: s). split; [reflexivity |].
      split; [apply not_elem_of_nil | right; eauto].
    + exists rest. split; [simpl; f_equal; exact Hs |].
      split; [| exact Hrest]. apply not_elem_of_cons. split; [congruence | exact Hnot].
Qed.

(** X25: when the request carries an [X-Forwarded-For] header, the address
    reported is that header up to its first comma, even if this is empty,
    and never the address of the connection. *)
Theorem getRemoteAddress_forwarded {A : Type} (req : request A)
    (forwardedFor : pystr) :
  x_forwarded_for req = Some forwardedFor ->
  exists rest,
    forwardedFor = getRemoteAddress req ++ rest /\
    (","%char ∉ getRemoteAddress req) /\
    (rest = [] \/ exists rest', rest = ","%char :: rest').
Proof.
  intros Hheader. unfold getRemoteAddress. rewrite Hheader.
  apply split_first_spec.
Qed.

Lemma getRemoteAddress_forwarded_witness :
  exists rest,
    ["1"; "."; "2"; ","; " "; "3"]%char
    = getRemoteAddress
        (mkRequest unit (Some ["1"; "."; "2"; ","; " "; "3"]%char) None
           ["9"]%char ∅) ++ rest /\
    (","%char ∉ getRemoteAddress
        (mkRequest unit (Some ["1"; "."; "2"; ","; " "; "3"]%char) None
           ["9"]%char ∅)) /\
    (rest = [] \/ exists rest', rest = ","%char :: rest').
Proof.
  apply (getRemoteAddress_forwarded
           (mkRequest unit (Some ["1"; "."; "2"; ","; " "; "3"]%char) None
              ["9"]%char ∅)).
  reflexivity.
Defined.







(** [contains] is the substring test. *)
Lemma contains_iff needle hay :
  contains needle hay = true <-> exists l1 l2, hay = l1 ++ needle ++ l2.
Proof.
  induction hay as [| c hay IH]; simpl.
  - rewrite orb_false_r, bool_decide_eq_true. split.
    + intros [k Hk]. exists [], k. exact Hk.
    + intros (l1 & l2 & Heq). symmetry in Heq.
      apply app_eq_nil in Heq as [-> Heq].
      apply app_eq_nil in Heq as [-> ->]. exists []. reflexivity.
  - rewrite orb_true_iff, bool_decide_eq_true, IH. split.
    + intros [[k Hk] | (l1 & l2 & ->)].
      * exists [], k. exact Hk.
      * exists (c :: l1), l2. reflexivity.
    + intros (l1 & l2 & Heq). destruct l1 as [| c' l1]; simpl in Heq.
      * left. exists l2. exact Heq.
      * injection Heq as -> ->. right. exists l1, l2. reflexivity.
Qed.

(** * Lines of bytes *)

Lemma rstrip_subseteq s : rstrip s ⊆ s.
Proof.
  induction s as [| c s IH]; simpl; [reflexivity |].
  destruct (rstrip s) as [| c' r] eqn:Hr.
  - destruct (is_space c); [apply list_subseteq_nil | ].
    intros x Hx. apply list_elem_of_singleton in Hx as ->. left.
  - intros x Hx. apply elem_of_cons in Hx as [-> | Hx]; [left | right].
    apply IH. exact Hx.
Qed.

Lemma rstrip_idemp s : rstrip (rstrip s) = rstrip s.
Proof.
  induction s as [| c s IH]; simpl; [reflexivity |].
  destruct (rstrip s) as [| c' r] eqn:Hr.
  - destruct (is_space c) eqn:Hc; [reflexivity |]. simpl. rewrite Hc. reflexivity.
  - change (rstrip (c :: c' :: r)) with
      (match rstrip (c' :: r) with
       | [] => if is_space c then [] else [c]
       | r' => c :: r'
       end).
    rewrite IH. reflexivity.
Qed.

Lemma recode_ascii s :
  forallb is_ascii_byte s = true ->
  encode_ascii_replace (decode_ascii_replace s) = s.
Proof.
  unfold encode_ascii_replace, decode_ascii_replace.
  induction s as [| b s IH]; csimpl; [reflexivity |].
  intros Hs. apply andb_prop in Hs as [Hb Hs].
  rewrite Hb. unfold is_ascii_byte in Hb. rewrite Hb.
  rewrite ascii_N_embedding, (IH Hs). reflexivity.
Qed.

Lemma recode_is_ascii s :
  forallb is_ascii_byte (encode_ascii_replace (decode_ascii_replace s)) = true.
Proof.
  unfold encode_ascii_replace, decode_ascii_replace.
  induction s as [| b s IH]; csimpl; [reflexivity |].
  rewrite IH, andb_true_r.
  destruct (is_ascii_byte b) eqn:Hb; [| reflexivity].
  unfold is_ascii_byte in Hb. rewrite Hb, ascii_N_embedding. exact Hb.
Qed.

Lemma sanitizeAscii_is_ascii line :
  forallb is_ascii_byte (sanitizeAscii line) = true.
Proof.
  unfold sanitizeAscii. apply List.forallb_forall. intros b Hb.
  pose proof (recode_is_ascii line) as Hall.
  rewrite List.forallb_forall in Hall. apply Hall.
  apply list_elem_of_In, rstrip_subseteq, list_elem_of_In, Hb.
Qed.

Lemma forallb_false_elem {B : Type} (f : B -> bool) (l : list B) :
  forallb f l = false -> exists x, x ∈ l /\ f x = false.
Proof.
  induction l as [| x l IH]; simpl; [discriminate |].
  destruct (f x) eqn:Hx; simpl.
  - intros Hl. destruct (IH Hl) as (y & Hy & Hfy). exists y.
    split; [right; exact Hy | exact Hfy].
  - intros _. exists x. split; [left | exact Hx].
Qed.

Lemma filterNonAscii_ascii line :
  forallb is_ascii_byte line = true -> filterNonAscii line = false.
Proof.
  intros Hall. unfold filterNonAscii, decode_ascii, encode_ascii.
  rewrite Hall.
  assert (Hcodes : forallb (fun c => (c <? 128)%N) (N_of_ascii <$> line) = true).
  { clear -Hall. induction line as [| b s IH]; csimpl in *; [reflexivity |].
    apply andb_prop in Hall as [Hb Hs]. rewrite (IH Hs), andb_true_r.
    exact Hb. }
  rewrite Hcodes. reflexivity.
Qed.

(** X28: a line contains non-ASCII characters, in the sense of
    [filterNonAscii], exactly when one of its bytes is 128 or more. *)
Theorem filterNonAscii_iff (line : pystr) :
  filterNonAscii line = true <->
  exists b, b ∈ line /\ (128 <= N_of_ascii b)%N.
Proof.
  destruct (forallb is_ascii_byte line) eqn:Hall.
  - rewrite (filterNonAscii_ascii line Hall). split; [discriminate |].
    intros (b & Hb & Hbig). rewrite List.forallb_forall in Hall.
    specialize (Hall b (proj1 (list_elem_of_In _ _) Hb)).
    unfold is_ascii_byte in Hall. apply N.ltb_lt in Hall. lia.
  - unfold filterNonAscii, decode_ascii. rewrite Hall.
    split; [intros _ | reflexivity].
    destruct (forallb_false_elem _ _ Hall) as (b & Hb & Hbig). exists b.
    split; [exact Hb |]. unfold is_ascii_byte in Hbig.
    apply N.ltb_ge in Hbig. exact Hbig.
Qed.

(** X29: what [sanitizeAscii] returns has no non-ASCII character for
    [filterNonAscii], and sanitizing it again changes nothing. *)
Theorem sanitizeAscii_clean (line : pystr) :
  filterNonAscii (sanitizeAscii line) = false /\
  sanitizeAscii (sanitizeAscii line) = sanitizeAscii line.
Proof.
  split.
  - apply filterNonAscii_ascii, sanitizeAscii_is_ascii.
  - unfold sanitizeAscii at 1.
    rewrite (recode_ascii _ (sanitizeAscii_is_ascii line)).
    unfold sanitizeAscii. apply rstrip_idemp.
Qed.
